(** * An LRU cache over a doubly linked list with sentinels (lru_cache.go)

    The Go program keeps a [map[K]*Node] index next to an intrusive doubly
    linked list of heap-allocated nodes bounded by two sentinel nodes.  The
    embedding below keeps that shape: nodes live in a heap (a list indexed by
    addresses), pointers are nullable addresses, and every method is a
    computation in a state-and-fault monad whose only faults are the ones a
    Go program can hit (a nil dereference) plus the two artefacts of the
    model (a dangling address, an exhausted traversal budget). *)

From Stdlib Require Import ZArith.
From stdpp Require Import gmap list fin_maps sorting.

(** ** Zero values

    Every Go type has a zero value; [Get] returns it on a miss and the
    sentinels are built from it. *)

Class Zero (T : Type) := zero : T.

#[export] Instance nat_zero : Zero nat := 0.
#[export] Instance Z_zero : Zero Z := 0%Z.

(** ** Faults and results *)

Inductive fault := NilDeref | Dangling | OutOfFuel.

Inductive result (A : Type) :=
  | Ok (a : A)
  | Err (e : fault).

Arguments Ok {A} a.
Arguments Err {A} e.

(** A pointer [*Node] is [nil] or an address of the heap. *)
Abbreviation pointer := (option nat).

Section LRU.

Context {K : Type} `{Countable K} {V : Type} `{Zero K} `{Zero V}.

(** ** Data model *)

Record Node := mkNode {
  key : K;
  value : V;
  prev : pointer;
  next : pointer
}.

Record LRUCache := mkLRUCache {
  capacity : Z;
  cache : gmap K pointer;
  head : pointer;
  tail : pointer
}.

(** The memory a method runs against: the nodes allocated so far and the
    receiver.  [capacity], [head] and [tail] never change after
    construction; the map behind [cache] does. *)
Record state := mkState {
  heap : list Node;
  lru : LRUCache
}.

Definition set_prev (q : pointer) (n : Node) : Node :=
  {| key := key n; value := value n; prev := q; next := next n |}.

Definition set_next (q : pointer) (n : Node) : Node :=
  {| key := key n; value := value n; prev := prev n; next := q |}.

Definition set_value (v : V) (n : Node) : Node :=
  {| key := key n; value := v; prev := prev n; next := next n |}.

Definition with_heap (f : list Node → list Node) (s : state) : state :=
  {| heap := f (heap s); lru := lru s |}.

Definition with_cache (f : gmap K pointer → gmap K pointer) (s : state) : state :=
  {| heap := heap s;
     lru := {| capacity := capacity (lru s); cache := f (cache (lru s));
               head := head (lru s); tail := tail (lru s) |} |}.

(** ** The monad of methods *)

Definition M (A : Type) : Type := state → result (A * state).

Definition ret {A} (a : A) : M A := λ s, Ok (a, s).

Definition bind {A B} (m : M A) (k : A → M B) : M B :=
  λ s, match m s with
       | Ok (a, s') => k a s'
       | Err e => Err e
       end.

Definition fail {A} (e : fault) : M A := λ _, Err e.

Notation "'let*' x ':=' m 'in' k" := (bind m (λ x, k))
  (at level 10, x name, m at level 100, k at level 200).
Notation "m '>>' k" := (bind m (λ _, k))
  (at level 100, k at level 200, right associativity).

(** [this] reads the receiver. *)
Definition this : M LRUCache := λ s, Ok (lru s, s).

(** [p.f]: a field read through a pointer. *)
Definition load {A} (f : Node → A) (p : pointer) : M A :=
  λ s, match p with
       | None => Err NilDeref
       | Some a =>
           match heap s !! a with
           | Some n => Ok (f n, s)
           | None => Err Dangling
           end
       end.

(** [p.f = x]: a field write through a pointer, [g] being the update. *)
Definition store (g : Node → Node) (p : pointer) : M unit :=
  λ s, match p with
       | None => Err NilDeref
       | Some a =>
           match heap s !! a with
           | Some _ => Ok (tt, with_heap (alter g a) s)
           | None => Err Dangling
           end
       end.

(** [&Node{...}]: a fresh node at the next free address. *)
Definition alloc (n : Node) : M pointer :=
  λ s, Ok (Some (length (heap s)), with_heap (λ h, h ++ [n]) s).

(** [lru.cache[k] = p] and [delete(lru.cache, k)]. *)
Definition cache_insert (k : K) (p : pointer) : M unit :=
  λ s, Ok (tt, with_cache (insert k p) s).

Definition cache_delete (k : K) : M unit :=
  λ s, Ok (tt, with_cache (delete k) s).

(** ** The program *)

Definition zero_node : Node :=
  {| key := zero; value := zero; prev := None; next := None |}.

(** [Constructor]: [h0] is the heap the constructor runs in. *)
Definition Constructor (capacity : Z) (h0 : list Node) : state :=
  let hd := length h0 in
  let tl := S (length h0) in
  let h1 := h0 ++ [zero_node; zero_node] in
  let h2 := alter (set_next (Some tl)) hd h1 in
  let h3 := alter (set_prev (Some hd)) tl h2 in
  {| heap := h3;
     lru := {| capacity := capacity; cache := ∅;
               head := Some hd; tail := Some tl |} |}.

Definition addNode (node : pointer) : M unit :=
  let* c := this in
  store (set_prev (head c)) node >>
  let* hn := load next (head c) in
  store (set_next hn) node >>
  let* hn' := load next (head c) in
  store (set_prev node) hn' >>
  store (set_next node) (head c).

Definition removeNode (node : pointer) : M unit :=
  let* prevNode := load prev node in
  let* nextNode := load next node in
  store (set_next nextNode) prevNode >>
  store (set_prev prevNode) nextNode.

Definition moveToHead (node : pointer) : M unit :=
  removeNode node >> addNode node.

Definition popTail : M pointer :=
  let* c := this in
  let* lastNode := load prev (tail c) in
  removeNode lastNode >>
  ret lastNode.

Definition Get (k : K) : M (V * bool) :=
  let* c := this in
  match cache c !! k with
  | None => ret (zero, false)
  | Some node =>
      moveToHead node >>
      let* v := load value node in
      ret (v, true)
  end.

Definition Put (k : K) (v : V) : M unit :=
  let* c := this in
  match cache c !! k with
  | Some node =>
      store (set_value v) node >>
      moveToHead node
  | None =>
      let* newNode := alloc {| key := k; value := v; prev := None; next := None |} in
      (if (Z.of_nat (size (cache c)) >=? capacity c)%Z
       then let* tl := popTail in
            let* tk := load key tl in
            cache_delete tk
       else ret tt) >>
      cache_insert k newNode >>
      addNode newNode
  end.

(** [Display]'s loop, returning the pairs it prints.  The loop has no bound
    in the source; [fuel] bounds the number of nodes visited. *)
Fixpoint walk (fuel : nat) (current stop : pointer) : M (list (K * V)) :=
  if decide (current = stop) then ret []
  else match fuel with
       | O => fail OutOfFuel
       | S fuel' =>
           let* k := load key current in
           let* v := load value current in
           let* nxt := load next current in
           let* rest := walk fuel' nxt stop in
           ret ((k, v) :: rest)
       end.

Definition Display (fuel : nat) : M (list (K * V)) :=
  let* c := this in
  let* first := load next (head c) in
  walk fuel first (tail c).

(** ** Sequences of operations *)

Inductive op :=
  | OGet (k : K)
  | OPut (k : K) (v : V).

Definition exec (o : op) : M unit :=
  match o with
  | OGet k => Get k >> ret tt
  | OPut k v => Put k v
  end.

Fixpoint run (ops : list op) (s : state) : result state :=
  match ops with
  | [] => Ok s
  | o :: ops' =>
      match exec o s with
      | Ok (_, s') => run ops' s'
      | Err e => Err e
      end
  end.

(** The state a sequence of operations leaves, [s] itself when it faults,
    and what [Display] prints there. *)
Definition run_from (s : state) (ops : list op) : state :=
  match run ops s with
  | Ok s' => s'
  | Err _ => s
  end.

Definition shown (s : state) : option (list (K * V)) :=
  match Display (length (heap s)) s with
  | Ok (l, _) => Some l
  | Err _ => None
  end.

(** ** Representation invariant

    The live entries, front to back, each with the address of its node. *)

Local Abbreviation item := (nat * K * V)%type.

Definition addrs (it : list item) : list nat := (λ x, x.1.1) <$> it.

Definition contents (it : list item) : list (K * V) := (λ x, (x.1.2, x.2)) <$> it.

Definition keys (it : list item) : list K := (λ x, x.1.2) <$> it.

Definition index_of (it : list item) : gmap K pointer :=
  list_to_map ((λ x, (x.1.2, Some x.1.1)) <$> it).

(** Field [f] of the node at address [a], when there is one. *)
Definition fld {A} (f : Node → A) (h : list Node) (a : nat) : option A :=
  f <$> h !! a.

(** Neighbours in [l] point at each other. *)
Definition linked (h : list Node) (l : list nat) : Prop :=
  ∀ i a b, l !! i = Some a → l !! S i = Some b →
    fld next h a = Some (Some b) ∧ fld prev h b = Some (Some a).

Definition holds (h : list Node) (it : list item) : Prop :=
  ∀ a k v, (a, k, v) ∈ it → fld key h a = Some k ∧ fld value h a = Some v.

Definition chain (hd tl : nat) (it : list item) : list nat :=
  hd :: addrs it ++ [tl].

Record wf_list (h : list Node) (hd tl : nat) (it : list item) : Prop := {
  wf_nodup : NoDup (chain hd tl it);
  wf_linked : linked h (chain hd tl it);
  wf_holds : holds h it;
  wf_head : fld prev h hd = Some None;
  wf_tail : fld next h tl = Some None
}.

Definition Inv (s : state) (it : list item) : Prop :=
  ∃ hd tl,
    head (lru s) = Some hd ∧ tail (lru s) = Some tl ∧
    wf_list (heap s) hd tl it ∧
    NoDup (keys it) ∧
    cache (lru s) = index_of it.

(** The heap updates of [removeNode] and [addNode]. *)
Definition unlink (pa na : nat) (h : list Node) : list Node :=
  alter (set_prev (Some pa)) na (alter (set_next (Some na)) pa h).

Definition push (hd a x : nat) (h : list Node) : list Node :=
  alter (set_next (Some a)) hd
    (alter (set_prev (Some a)) x
       (alter (set_next (Some x)) a
          (alter (set_prev (Some hd)) a h))).

(** ** What the cache stores and when a key was last used *)

(** The value the index leads to for [k]. *)
Definition stored (s : state) (k : K) : option V :=
  match cache (lru s) !! k with
  | Some (Some a) => fld value (heap s) a
  | _ => None
  end.

Definition op_key (o : op) : K :=
  match o with
  | OGet k => k
  | OPut k _ => k
  end.

(** [age past k]: how many operations ago [k] was last named by a [Get] or
    a [Put], [past] listing the operations latest first. *)
Definition age (past : list op) (k : K) : option nat :=
  fst <$> list_find (λ o, op_key o = k) past.

(** [k1] was used more recently than [k2]. *)
Definition fresher (past : list op) (k1 k2 : K) : Prop :=
  ∃ n1 n2, age past k1 = Some n1 ∧ age past k2 = Some n2 ∧ n1 < n2.

(** Front to back, every key has been used and the keys get strictly older. *)
Definition by_recency (past : list op) (ks : list K) : Prop :=
  Forall (λ k, is_Some (age past k)) ks ∧ StronglySorted (fresher past) ks.

(** What an operation does to the list of live entries; [n] is the next free
    address and [cap] the capacity.  [None] is the nil dereference. *)
Inductive step (n : nat) (cap : Z) : op → list item → option (list item) → Prop :=
  | step_get_miss k it :
      k ∉ keys it →
      step n cap (OGet k) it (Some it)
  | step_get_hit k it1 a v it2 :
      step n cap (OGet k) (it1 ++ (a, k, v) :: it2) (Some ((a, k, v) :: it1 ++ it2))
  | step_put_hit k v' it1 a v it2 :
      step n cap (OPut k v') (it1 ++ (a, k, v) :: it2) (Some ((a, k, v') :: it1 ++ it2))
  | step_put_new k v it :
      k ∉ keys it → (Z.of_nat (length it) < cap)%Z →
      step n cap (OPut k v) it (Some ((n, k, v) :: it))
  | step_put_evict k v it e :
      k ∉ keys (it ++ [e]) → (cap ≤ Z.of_nat (length (it ++ [e])))%Z →
      step n cap (OPut k v) (it ++ [e]) (Some ((n, k, v) :: it))
  | step_put_fault k v :
      (cap ≤ 0)%Z →
      step n cap (OPut k v) [] None.

(** ** A list model of the cache

    The association list the cache stands for, most recently used first, and
    what [Get] and [Put] do to it. *)

Definition assoc (k : K) (l : list (K * V)) : option V :=
  (λ x, x.2.2) <$> list_find (λ kv, kv.1 = k) l.

Definition drop_key (k : K) (l : list (K * V)) : list (K * V) :=
  filter (λ kv, kv.1 ≠ k) l.

Definition model_step (cap : Z) (l : list (K * V)) (o : op) : list (K * V) :=
  match o with
  | OGet k =>
      match assoc k l with
      | Some v => (k, v) :: drop_key k l
      | None => l
      end
  | OPut k v =>
      if decide (k ∈ l.*1) then (k, v) :: drop_key k l
      else if decide (cap ≤ Z.of_nat (length l))%Z then (k, v) :: removelast l
      else (k, v) :: l
  end.

Definition model (cap : Z) (ops : list op) : list (K * V) :=
  foldl (model_step cap) [] ops.

(** What the constructor fixes once and for all. *)
Definition config (s : state) : Z * pointer * pointer :=
  (capacity (lru s), head (lru s), tail (lru s)).

Definition keeps_config {A} (m : M A) : Prop :=
  ∀ s a s', m s = Ok (a, s') → config s' = config s.

(** [m] allocates [n] nodes whenever it returns. *)
Definition allocates {A} (n : nat) (m : M A) : Prop :=
  ∀ s a s', m s = Ok (a, s') → length (heap s') = length (heap s) + n.

Definition is_get (o : op) : bool :=
  match o with
  | OGet _ => true
  | OPut _ _ => false
  end.

(** ** Heap lemmas *)

Lemma fld_alter_ne {A} (f : Node → A) g h a b :
  a ≠ b → fld f (alter g b h) a = fld f h a.
Proof. intros Hne. unfold fld. by rewrite list_lookup_alter_ne. Qed.

Lemma fld_alter_frame {A} (f : Node → A) g h a b :
  (∀ n, f (g n) = f n) → fld f (alter g b h) a = fld f h a.
Proof.
  intros Hfg. unfold fld. destruct (decide (a = b)) as [->|Hne].
  - rewrite list_lookup_alter_eq. destruct (h !! b); simpl; by rewrite ?Hfg.
  - by rewrite list_lookup_alter_ne.
Qed.

Lemma fld_alter_eq {A} (f : Node → A) g h a x :
  is_Some (h !! a) → (∀ n, f (g n) = x) → fld f (alter g a h) a = Some x.
Proof.
  intros [n Hn] Hfg. unfold fld. rewrite list_lookup_alter_eq, Hn. simpl. by rewrite Hfg.
Qed.

Lemma fld_is_Some {A} (f : Node → A) (h : list Node) (a : nat) x : fld f h a = Some x → is_Some (h !! a).
Proof. unfold fld. destruct (h !! a); naive_solver. Qed.

Lemma alter_is_Some (g : Node → Node) (h : list Node) (a b : nat) : is_Some (alter g b h !! a) ↔ is_Some (h !! a).
Proof. rewrite !lookup_lt_is_Some. by rewrite length_alter. Qed.

Lemma fld_app {A} (f : Node → A) (h l : list Node) (a : nat) :
  is_Some (h !! a) → fld f (h ++ l) a = fld f h a.
Proof.
  intros Hs. unfold fld. rewrite lookup_app_l; [done|]. by apply lookup_lt_is_Some.
Qed.

(** Two positions of a duplicate-free list hold different addresses. *)
Ltac distinct :=
  let E := fresh in
  intros E; subst;
  match goal with
  | HN : NoDup ?l, H1 : ?l !! ?i = Some ?x, H2 : ?l !! ?j = Some ?x |- _ =>
      pose proof (NoDup_lookup _ _ _ _ HN H1 H2); lia
  end.

Lemma linked_in_range h l a : 2 ≤ length l → linked h l → a ∈ l → is_Some (h !! a).
Proof.
  intros Hlen Hl Ha. apply list_elem_of_lookup in Ha as [i Hi].
  destruct i as [|i].
  - destruct (lookup_lt_is_Some_2 l 1) as [b Hb]; [lia|].
    destruct (Hl 0 a b Hi Hb) as [Hn _]. by eapply fld_is_Some.
  - destruct (lookup_lt_is_Some_2 l i) as [b Hb]; [apply lookup_lt_Some in Hi; lia|].
    destruct (Hl i b a Hb Hi) as [_ Hp]. by eapply fld_is_Some.
Qed.

Lemma linked_tail h a l : linked h (a :: l) → linked h l.
Proof. intros Hl i x y Hx Hy. by apply (Hl (S i)). Qed.

(** Unlinking the node at position [S i] of a chain. *)
Lemma linked_unlink h l i pa a na :
  NoDup l → linked h l →
  l !! i = Some pa → l !! S i = Some a → l !! S (S i) = Some na →
  linked (unlink pa na h) (delete (S i) l).
Proof.
  intros HN Hl Hpa Ha Hna j x y Hx Hy. unfold unlink.
  assert (is_Some (h !! pa) ∧ is_Some (h !! na)) as [Spa Sna].
  { destruct (Hl _ _ _ Hpa Ha) as [? _], (Hl _ _ _ Ha Hna) as [_ ?].
    split; by eapply fld_is_Some. }
  destruct (decide (j < i)) as [Hlt|Hge].
  - rewrite list_lookup_delete_lt in Hx by lia. rewrite list_lookup_delete_lt in Hy by lia.
    destruct (Hl _ _ _ Hx Hy) as [Hn Hp]. split.
    + rewrite fld_alter_frame by done. rewrite fld_alter_ne; [done|distinct].
    + rewrite fld_alter_ne by distinct. by rewrite fld_alter_frame.
  - destruct (decide (j = i)) as [->|Hne].
    + rewrite list_lookup_delete_lt in Hx by lia. rewrite list_lookup_delete_ge in Hy by lia.
      assert (x = pa) as -> by congruence. assert (y = na) as -> by congruence.
      split.
      * rewrite fld_alter_frame by done. apply fld_alter_eq; [done|reflexivity].
      * apply fld_alter_eq; [by apply alter_is_Some|reflexivity].
    + rewrite list_lookup_delete_ge in Hx by lia. rewrite list_lookup_delete_ge in Hy by lia.
      destruct (Hl _ _ _ Hx Hy) as [Hn Hp]. split.
      * rewrite fld_alter_frame by done. rewrite fld_alter_ne; [done|distinct].
      * rewrite fld_alter_ne by distinct. by rewrite fld_alter_frame.
Qed.

(** Linking a node that is not on the chain right after its first node. *)
Lemma linked_push h hd x rest a :
  NoDup (hd :: a :: x :: rest) → is_Some (h !! a) →
  linked h (hd :: x :: rest) →
  linked (push hd a x h) (hd :: a :: x :: rest).
Proof.
  intros HN Sa Hl j u w Hu Hw. unfold push.
  assert (is_Some (h !! hd) ∧ is_Some (h !! x)) as [Shd Sx].
  { destruct (Hl 0 hd x eq_refl eq_refl) as [? ?]. split; by eapply fld_is_Some. }
  assert (hd ≠ a ∧ hd ≠ x ∧ a ≠ x) as (Hhda & Hhdx & Hax).
  { assert ((hd :: a :: x :: rest) !! 0 = Some hd) as E0 by done.
    assert ((hd :: a :: x :: rest) !! 1 = Some a) as E1 by done.
    assert ((hd :: a :: x :: rest) !! 2 = Some x) as E2 by done.
    split_and!; distinct. }
  destruct j as [|[|j]]; simpl in Hu, Hw; simplify_eq.
  - split.
    + apply fld_alter_eq; [by rewrite !alter_is_Some|reflexivity].
    + rewrite fld_alter_frame by done. rewrite fld_alter_ne by done.
      rewrite fld_alter_frame by done. apply fld_alter_eq; [done|reflexivity].
  - split.
    + rewrite fld_alter_ne by done. rewrite fld_alter_frame by done.
      apply fld_alter_eq; [by rewrite !alter_is_Some|reflexivity].
    + rewrite fld_alter_frame by done. apply fld_alter_eq; [by rewrite !alter_is_Some|reflexivity].
  - destruct (Hl (S j) u w Hu Hw) as [Hn Hp].
    assert ((hd :: a :: x :: rest) !! 0 = Some hd) as H0' by done.
    assert ((hd :: a :: x :: rest) !! 1 = Some a) as H1' by done.
    assert ((hd :: a :: x :: rest) !! 2 = Some x) as H2' by done.
    assert ((hd :: a :: x :: rest) !! S (S j) = Some u) as Hu' by done.
    assert ((hd :: a :: x :: rest) !! S (S (S j)) = Some w) as Hw' by done.
    split.
    + rewrite fld_alter_ne by distinct. rewrite fld_alter_frame by done.
      rewrite fld_alter_ne by distinct. by rewrite fld_alter_frame.
    + rewrite fld_alter_frame by done. rewrite fld_alter_ne by distinct.
      rewrite fld_alter_frame by done. rewrite fld_alter_ne by distinct. done.
Qed.

Lemma chain_middle hd tl it1 (e : item) it2 :
  chain hd tl (it1 ++ e :: it2) = (hd :: addrs it1) ++ e.1.1 :: (addrs it2 ++ [tl]).
Proof. unfold chain, addrs. rewrite fmap_app, fmap_cons. simpl. by rewrite <-app_assoc. Qed.

Lemma chain_app hd tl it1 it2 :
  chain hd tl (it1 ++ it2) = (hd :: addrs it1) ++ (addrs it2 ++ [tl]).
Proof. unfold chain, addrs. rewrite fmap_app. simpl. by rewrite <-app_assoc. Qed.

Lemma chain_length hd tl it : length (chain hd tl it) = S (S (length it)).
Proof. unfold chain, addrs. simpl. rewrite length_app, length_fmap. simpl. lia. Qed.

Lemma chain_last hd tl it : chain hd tl it !! S (length it) = Some tl.
Proof.
  unfold chain. simpl.
  assert (length (addrs it) = length it) as Hlen by (unfold addrs; by rewrite length_fmap).
  rewrite lookup_app_r by lia. by rewrite Hlen, Nat.sub_diag.
Qed.

Lemma holds_frame h h' it :
  (∀ a, fld key h' a = fld key h a) → (∀ a, fld value h' a = fld value h a) →
  holds h it → holds h' it.
Proof. intros Hk Hv Hh a k v Hin. rewrite Hk, Hv. by apply Hh. Qed.

Lemma unlink_key pa na h a : fld key (unlink pa na h) a = fld key h a.
Proof. unfold unlink. by rewrite !fld_alter_frame. Qed.

Lemma unlink_value pa na h a : fld value (unlink pa na h) a = fld value h a.
Proof. unfold unlink. by rewrite !fld_alter_frame. Qed.

Lemma push_key hd a x h b : fld key (push hd a x h) b = fld key h b.
Proof. unfold push. by rewrite !fld_alter_frame. Qed.

Lemma push_value hd a x h b : fld value (push hd a x h) b = fld value h b.
Proof. unfold push. by rewrite !fld_alter_frame. Qed.

(** The neighbours of a live node, and the chain once it is unlinked. *)
Lemma wf_unlink h hd tl it1 a k v it2 :
  wf_list h hd tl (it1 ++ (a, k, v) :: it2) →
  ∃ pa na,
    chain hd tl (it1 ++ it2) !! (length it1) = Some pa ∧
    chain hd tl (it1 ++ it2) !! S (length it1) = Some na ∧
    fld prev h a = Some (Some pa) ∧ fld next h a = Some (Some na) ∧
    is_Some (h !! pa) ∧ is_Some (h !! na) ∧
    (a ∉ chain hd tl (it1 ++ it2)) ∧
    wf_list (unlink pa na h) hd tl (it1 ++ it2).
Proof.
  intros [HN Hl Hh Hhd Htl].
  pose proof (chain_length hd tl (it1 ++ (a, k, v) :: it2)) as Hlen.
  rewrite length_app in Hlen. cbn [length] in Hlen.
  assert (length (hd :: addrs it1) = S (length it1)) as Hl1.
  { unfold addrs. simpl. by rewrite length_fmap. }
  assert (chain hd tl (it1 ++ (a, k, v) :: it2) !! S (length it1) = Some a) as Ha.
  { rewrite chain_middle, <-Hl1. by apply list_lookup_middle. }
  destruct (lookup_lt_is_Some_2 (chain hd tl (it1 ++ (a, k, v) :: it2)) (length it1))
    as [pa Hpa]; [lia|].
  destruct (lookup_lt_is_Some_2 (chain hd tl (it1 ++ (a, k, v) :: it2)) (S (S (length it1))))
    as [na Hna]; [lia|].
  assert (delete (S (length it1)) (chain hd tl (it1 ++ (a, k, v) :: it2))
          = chain hd tl (it1 ++ it2)) as Hdel.
  { rewrite chain_middle, chain_app, <-Hl1. apply delete_middle. }
  destruct (Hl _ _ _ Hpa Ha) as [Hpn Hap], (Hl _ _ _ Ha Hna) as [Han Hnp].
  assert (chain hd tl (it1 ++ (a, k, v) :: it2) !! 0 = Some hd) as Hhd0 by done.
  pose proof (chain_last hd tl (it1 ++ (a, k, v) :: it2)) as Htl0.
  rewrite length_app in Htl0. cbn [length] in Htl0.
  exists pa, na. split_and!; try done.
  - rewrite <-Hdel. by rewrite list_lookup_delete_lt by lia.
  - rewrite <-Hdel. by rewrite list_lookup_delete_ge by lia.
  - by eapply fld_is_Some.
  - by eapply fld_is_Some.
  - rewrite chain_middle in HN. rewrite chain_app.
    apply NoDup_app in HN as (_ & Hdisj & HN2). apply NoDup_cons in HN2 as [Hni _].
    intros [Hin|Hin]%elem_of_app; [|done].
    apply (Hdisj a Hin), list_elem_of_here.
  - constructor.
    + rewrite chain_middle in HN. rewrite chain_app.
      apply NoDup_app in HN as (HN1 & Hdisj & HN2). apply NoDup_cons in HN2 as [_ HN2].
      apply NoDup_app. split_and!; [done| |done].
      intros x Hx Hx2. apply (Hdisj x Hx). apply elem_of_cons. by right.
    + rewrite <-Hdel. by eapply linked_unlink.
    + eapply holds_frame; [apply unlink_key|apply unlink_value|].
      intros b kb vb Hin. apply Hh.
      apply elem_of_app in Hin as [?|?]; apply elem_of_app; [by left|right].
      apply elem_of_cons. by right.
    + unfold unlink. rewrite fld_alter_ne by distinct. by rewrite fld_alter_frame.
    + unfold unlink. rewrite fld_alter_frame by done. rewrite fld_alter_ne by distinct. done.
Qed.

(** Linking a node that is off the chain right behind the head sentinel. *)
Lemma wf_push h hd tl it a k v :
  wf_list h hd tl it → a ∉ chain hd tl it →
  fld key h a = Some k → fld value h a = Some v →
  ∃ x,
    chain hd tl it !! 1 = Some x ∧
    fld next h hd = Some (Some x) ∧ is_Some (h !! x) ∧
    wf_list (push hd a x h) hd tl ((a, k, v) :: it).
Proof.
  intros [HN Hl Hh Hhd Htl] Hni Hk Hv.
  pose proof (chain_last hd tl it) as Hlast.
  unfold chain in *. destruct (addrs it ++ [tl]) as [|x rest] eqn:E.
  { by destruct (addrs it). }
  destruct (Hl 0 hd x eq_refl eq_refl) as [Hhx Hxh].
  assert (NoDup (hd :: a :: x :: rest)) as HN'.
  { apply NoDup_cons in HN as [Hhd' HN]. rewrite !not_elem_of_cons in Hni.
    destruct Hni as (? & ? & ?).
    apply NoDup_cons. split.
    - rewrite not_elem_of_cons. split; [congruence|done].
    - apply NoDup_cons. split; [|done]. rewrite not_elem_of_cons. done. }
  assert (a ≠ hd ∧ a ≠ x ∧ a ≠ tl ∧ hd ≠ x ∧ hd ≠ tl) as (? & ? & ? & ? & ?).
  { assert (tl ∈ x :: rest) as Htin by (rewrite <-E; apply elem_of_app; right; left).
    assert (x ∈ x :: rest) as Hxin by left.
    apply NoDup_cons in HN as [Hhd' HN]. apply not_elem_of_cons in Hni as [? Hni].
    split_and!; [done|by intros ->|by intros ->|by intros ->|by intros ->]. }
  exists x. split_and!; [done|done|by eapply fld_is_Some|].
  constructor; unfold chain; simpl; rewrite ?E.
  - done.
  - apply linked_push; [done|by eapply fld_is_Some|done].
  - intros b kb vb Hin. rewrite push_key, push_value.
    apply elem_of_cons in Hin as [Heq|Hin]; [by simplify_eq|by apply Hh].
  - unfold push. rewrite fld_alter_frame by done. rewrite fld_alter_ne by done.
    rewrite fld_alter_frame by done. rewrite fld_alter_ne by done. done.
  - unfold push. rewrite fld_alter_ne by done. rewrite fld_alter_frame by done.
    rewrite fld_alter_ne by done. rewrite fld_alter_frame by done. done.
Qed.

(** ** Running the primitives *)

Lemma load_run {A} (f : Node → A) a x s :
  fld f (heap s) a = Some x → load f (Some a) s = Ok (x, s).
Proof.
  unfold fld, load. intros Hf. destruct (heap s !! a); simpl in Hf; by simplify_eq.
Qed.

Lemma store_run g a s :
  is_Some (heap s !! a) → store g (Some a) s = Ok (tt, with_heap (alter g a) s).
Proof. unfold store. by intros [n ->]. Qed.

Lemma bind_run {A B} (m : M A) (k : A → M B) s a s' :
  m s = Ok (a, s') → bind m k s = k a s'.
Proof. unfold bind. by intros ->. Qed.

Lemma removeNode_run a pa na s :
  fld prev (heap s) a = Some (Some pa) → fld next (heap s) a = Some (Some na) →
  is_Some (heap s !! pa) → is_Some (heap s !! na) →
  removeNode (Some a) s = Ok (tt, with_heap (unlink pa na) s).
Proof.
  intros Hp Hn Spa Sna. unfold removeNode.
  rewrite (bind_run _ _ _ _ _ (load_run prev _ _ _ Hp)).
  rewrite (bind_run _ _ _ _ _ (load_run next _ _ _ Hn)).
  rewrite (bind_run _ _ _ _ _ (store_run _ _ _ Spa)).
  rewrite store_run; [done|]. simpl. by apply alter_is_Some.
Qed.

Lemma addNode_run a hd x s :
  head (lru s) = Some hd → a ≠ hd → is_Some (heap s !! a) →
  fld next (heap s) hd = Some (Some x) → is_Some (heap s !! x) →
  addNode (Some a) s = Ok (tt, with_heap (push hd a x) s).
Proof.
  intros Hhd Hne Sa Hn Sx. unfold addNode, bind at 1, this. rewrite Hhd.
  rewrite (bind_run _ _ _ _ _ (store_run _ _ _ Sa)).
  erewrite (bind_run (load next (Some hd))); cycle 1.
  { apply load_run. simpl. rewrite fld_alter_ne by done. exact Hn. }
  erewrite (bind_run (store _ (Some a))); cycle 1.
  { apply store_run. simpl. by apply alter_is_Some. }
  erewrite (bind_run (load next (Some hd))); cycle 1.
  { apply load_run. simpl. rewrite fld_alter_ne by done. rewrite fld_alter_ne by done.
    exact Hn. }
  erewrite (bind_run (store _ (Some x))); cycle 1.
  { apply store_run. simpl. by rewrite !alter_is_Some. }
  rewrite store_run; [done|]. simpl. rewrite !alter_is_Some. by eapply fld_is_Some.
Qed.

(** ** The traversal *)

Lemma walk_run s tl it :
  ∀ fuel p,
    NoDup (p :: addrs it ++ [tl]) → linked (heap s) (p :: addrs it ++ [tl]) →
    holds (heap s) it → length it ≤ fuel →
    ∃ x, fld next (heap s) p = Some x ∧
         walk fuel x (Some tl) s = Ok (contents it, s).
Proof.
  induction it as [|[[a k] v] it IH]; intros fuel p HN Hl Hh Hfuel; simpl in *.
  - destruct (Hl 0 p tl eq_refl eq_refl) as [Hn _].
    exists (Some tl). split; [done|].
    destruct fuel; simpl; by rewrite decide_True.
  - destruct (Hl 0 p a eq_refl eq_refl) as [Hn _].
    exists (Some a). split; [done|].
    destruct fuel as [|fuel]; [lia|]. simpl.
    assert (a ≠ tl) as Hne.
    { apply NoDup_cons in HN as [_ HN]. apply NoDup_cons in HN as [Hni _].
      intros ->. apply Hni, elem_of_app. right. left. }
    rewrite decide_False by congruence.
    destruct (Hh a k v) as [Hk Hv]; [left|].
    destruct (IH fuel a) as (x & Hx & Hw).
    { by apply NoDup_cons in HN as [_ HN]. }
    { by eapply linked_tail. }
    { intros b kb vb Hin. apply Hh. by right. }
    { lia. }
    rewrite (bind_run _ _ _ _ _ (load_run key _ _ _ Hk)).
    rewrite (bind_run _ _ _ _ _ (load_run value _ _ _ Hv)).
    rewrite (bind_run _ _ _ _ _ (load_run next _ _ _ Hx)).
    by rewrite (bind_run _ _ _ _ _ Hw).
Qed.

Lemma Display_run s it fuel :
  Inv s it → length it ≤ fuel → Display fuel s = Ok (contents it, s).
Proof.
  intros (hd & tl & Hhd & Htl & [HN Hl Hh _ _] & _) Hfuel.
  destruct (walk_run s tl it fuel hd HN Hl Hh Hfuel) as (x & Hx & Hw).
  unfold Display, bind at 1, this. rewrite Hhd, Htl.
  by rewrite (bind_run _ _ _ _ _ (load_run next _ _ _ Hx)).
Qed.

(** ** The index *)

Lemma index_keys it : ((λ x : item, (x.1.2, Some x.1.1)) <$> it).*1 = keys it.
Proof. unfold keys. rewrite <-list_fmap_compose. done. Qed.

Lemma index_cons a k v it : index_of ((a, k, v) :: it) = <[k := Some a]> (index_of it).
Proof. done. Qed.

Lemma index_lookup it k p :
  NoDup (keys it) →
  index_of it !! k = Some p ↔ ∃ a v, p = Some a ∧ (a, k, v) ∈ it.
Proof.
  intros HN. unfold index_of. rewrite <-elem_of_list_to_map by by rewrite index_keys.
  rewrite list_elem_of_fmap. split.
  - intros ([[a k'] v] & Heq & Hin). simpl in Heq. simplify_eq. eauto.
  - intros (a & v & -> & Hin). by exists (a, k, v).
Qed.

Lemma index_lookup_None it k : index_of it !! k = None ↔ k ∉ keys it.
Proof. unfold index_of. by rewrite <-not_elem_of_list_to_map, index_keys. Qed.

Lemma index_size it : NoDup (keys it) → size (index_of it) = length it.
Proof.
  intros HN. unfold index_of. rewrite map_size_list_to_map by by rewrite index_keys.
  by rewrite length_fmap.
Qed.


(** The index forgets the order of the entries and their values. *)
Lemma index_front it1 a k v v' it2 :
  NoDup (keys (it1 ++ (a, k, v) :: it2)) →
  index_of ((a, k, v') :: it1 ++ it2) = index_of (it1 ++ (a, k, v) :: it2).
Proof.
  intros HN. symmetry. unfold index_of. apply list_to_map_proper.
  - by rewrite index_keys.
  - rewrite !fmap_app, !fmap_cons, fmap_app. simpl.
    by rewrite Permutation_middle.
Qed.

Lemma index_delete_last it a k v :
  NoDup (keys (it ++ [(a, k, v)])) →
  delete k (index_of (it ++ [(a, k, v)])) = index_of it.
Proof.
  intros HN. rewrite <-(app_nil_r it) at 2.
  rewrite <-(index_front it a k v v []) by done. rewrite app_nil_r.
  rewrite index_cons, delete_insert_eq. apply delete_id, index_lookup_None.
  unfold keys in *. rewrite fmap_app in HN. apply NoDup_app in HN as (_ & Hd & _).
  intros Hin. apply (Hd k Hin). left.
Qed.

Lemma keys_front it1 a k v v' it2 :
  NoDup (keys (it1 ++ (a, k, v) :: it2)) → NoDup (keys ((a, k, v') :: it1 ++ it2)).
Proof.
  unfold keys. rewrite !fmap_app, !fmap_cons, fmap_app. simpl.
  by rewrite <-Permutation_middle.
Qed.

(** ** Running the list primitives on a well-formed chain *)

Lemma wf_in_range h hd tl it a : wf_list h hd tl it → a ∈ chain hd tl it → is_Some (h !! a).
Proof.
  intros [_ Hl _ _ _]. apply linked_in_range; [|done]. rewrite chain_length. lia.
Qed.

Lemma wf_head_in hd tl it : hd ∈ chain hd tl it.
Proof. left. Qed.

Lemma wf_tail_in hd tl it : tl ∈ chain hd tl it.
Proof. unfold chain. right. apply elem_of_app. right. left. Qed.

(** Allocation leaves the chain alone and yields an address off it. *)
Lemma wf_alloc h hd tl it n :
  wf_list h hd tl it → wf_list (h ++ [n]) hd tl it ∧ length h ∉ chain hd tl it.
Proof.
  intros Hwf. split.
  - destruct Hwf as [HN Hl Hh Hhd Htl]. constructor; [done| | | |].
    + intros i a b Ha Hb. destruct (Hl i a b Ha Hb) as [Hn Hp].
      rewrite !fld_app by by eapply fld_is_Some. done.
    + intros a k v Hin. destruct (Hh a k v Hin) as [Hk Hv].
      rewrite !fld_app by by eapply fld_is_Some. done.
    + rewrite fld_app by by eapply fld_is_Some. done.
    + rewrite fld_app by by eapply fld_is_Some. done.
  - intros Hin. apply (wf_in_range _ _ _ _ _ Hwf) in Hin.
    apply lookup_lt_is_Some in Hin. lia.
Qed.

Lemma wf_last h hd tl it a k v :
  wf_list h hd tl (it ++ [(a, k, v)]) → fld prev h tl = Some (Some a).
Proof.
  intros [_ Hl _ _ _].
  pose proof (chain_last hd tl (it ++ [(a, k, v)])) as Htl.
  rewrite length_app in Htl. cbn [length] in Htl.
  assert (chain hd tl (it ++ [(a, k, v)]) !! S (length it) = Some a) as Ha.
  { rewrite chain_middle.
    assert (length (hd :: addrs it) = S (length it)) as <-
      by (unfold addrs; simpl; by rewrite length_fmap).
    by apply list_lookup_middle. }
  replace (S (length it + 1)) with (S (S (length it))) in Htl by lia.
  by destruct (Hl _ _ _ Ha Htl).
Qed.

(** Overwriting the value of a live node. *)
Lemma wf_set_value h hd tl it1 a k v v' it2 :
  wf_list h hd tl (it1 ++ (a, k, v) :: it2) →
  wf_list (alter (set_value v') a h) hd tl (it1 ++ (a, k, v') :: it2).
Proof.
  intros Hwf. destruct Hwf as [HN Hl Hh Hhd Htl].
  assert (chain hd tl (it1 ++ (a, k, v') :: it2) = chain hd tl (it1 ++ (a, k, v) :: it2)) as Hc
    by by rewrite !chain_middle.
  constructor; rewrite ?Hc; [done| | | |].
  - intros i x y Hx Hy. rewrite !fld_alter_frame by done. exact (Hl _ _ _ Hx Hy).
  - intros b kb vb Hin. rewrite fld_alter_frame by done.
    destruct (decide (b = a)) as [->|Hne].
    + assert (kb = k ∧ vb = v') as [-> ->].
      { apply elem_of_app in Hin as [Hin|Hin].
        - exfalso. rewrite chain_middle in HN. apply NoDup_cons in HN as [_ HN].
          apply NoDup_app in HN as (_ & Hd & _). apply (Hd a); [|left].
          unfold addrs. apply list_elem_of_fmap. by exists (a, kb, vb).
        - apply elem_of_cons in Hin as [Heq|Hin]; [by simplify_eq|].
          exfalso. rewrite chain_middle in HN. apply NoDup_app in HN as (_ & _ & HN).
          apply NoDup_cons in HN as [Hni _]. apply Hni, elem_of_app. left.
          unfold addrs. apply list_elem_of_fmap. by exists (a, kb, vb). }
      destruct (Hh a k v) as [Hk Hv]; [apply elem_of_app; right; left|].
      split; [done|]. apply fld_alter_eq; [by eapply fld_is_Some|reflexivity].
    + rewrite fld_alter_ne by done. apply Hh.
      apply elem_of_app in Hin as [Hin|Hin]; apply elem_of_app; [by left|right].
      apply elem_of_cons in Hin as [Heq|Hin]; [by simplify_eq|by right].
  - by rewrite fld_alter_frame.
  - by rewrite fld_alter_frame.
Qed.

Lemma insert_run s hd tl it a k v :
  head (lru s) = Some hd → wf_list (heap s) hd tl it → a ∉ chain hd tl it →
  fld key (heap s) a = Some k → fld value (heap s) a = Some v →
  ∃ h', addNode (Some a) s = Ok (tt, with_heap (λ _, h') s) ∧
        wf_list h' hd tl ((a, k, v) :: it) ∧ length h' = length (heap s).
Proof.
  intros Hhd Hwf Hni Hk Hv.
  destruct (wf_push _ _ _ _ _ _ _ Hwf Hni Hk Hv) as (x & Hx & Hn & Sx & Hwf').
  exists (push hd a x (heap s)). split_and!; [|done|].
  - rewrite (addNode_run a hd x); [done|done| |by eapply fld_is_Some|done|done].
    intros ->. apply Hni, wf_head_in.
  - unfold push. by rewrite !length_alter.
Qed.

Lemma moveToHead_run s hd tl it1 a k v it2 :
  head (lru s) = Some hd → wf_list (heap s) hd tl (it1 ++ (a, k, v) :: it2) →
  ∃ h', moveToHead (Some a) s = Ok (tt, with_heap (λ _, h') s) ∧
        wf_list h' hd tl ((a, k, v) :: it1 ++ it2) ∧ length h' = length (heap s).
Proof.
  intros Hhd Hwf.
  destruct (wf_unlink _ _ _ _ _ _ _ _ Hwf)
    as (pa & na & _ & _ & Hp & Hn & Spa & Sna & Hni & Hwf1).
  destruct (wf_holds _ _ _ _ Hwf a k v) as [Hk Hv]; [apply elem_of_app; right; left|].
  destruct (insert_run (with_heap (unlink pa na) s) hd tl (it1 ++ it2) a k v)
    as (h' & Hrun & Hwf' & Hlen); try done.
  { simpl. by rewrite unlink_key. }
  { simpl. by rewrite unlink_value. }
  exists h'. split_and!; [|done|].
  - unfold moveToHead. rewrite (bind_run _ _ _ _ _ (removeNode_run _ _ _ _ Hp Hn Spa Sna)).
    exact Hrun.
  - rewrite Hlen. simpl. unfold unlink. by rewrite !length_alter.
Qed.

Lemma popTail_run s hd tl it a k v :
  head (lru s) = Some hd → tail (lru s) = Some tl →
  wf_list (heap s) hd tl (it ++ [(a, k, v)]) →
  ∃ h', popTail s = Ok (Some a, with_heap (λ _, h') s) ∧
        wf_list h' hd tl it ∧ length h' = length (heap s) ∧
        (∀ b, fld key h' b = fld key (heap s) b) ∧
        (∀ b, fld value h' b = fld value (heap s) b).
Proof.
  intros Hhd Htl Hwf.
  pose proof (wf_last _ _ _ _ _ _ _ Hwf) as Hlast.
  destruct (wf_unlink _ _ _ _ _ _ _ _ Hwf)
    as (pa & na & _ & _ & Hp & Hn & Spa & Sna & Hni & Hwf1).
  rewrite app_nil_r in Hwf1.
  exists (unlink pa na (heap s)). split_and!; [|done| | |].
  - unfold popTail, bind at 1, this. rewrite Htl.
    rewrite (bind_run _ _ _ _ _ (load_run prev _ _ _ Hlast)).
    by rewrite (bind_run _ _ _ _ _ (removeNode_run _ _ _ _ Hp Hn Spa Sna)).
  - unfold unlink. by rewrite !length_alter.
  - intros b. apply unlink_key.
  - intros b. apply unlink_value.
Qed.

(** On an empty chain [popTail] reaches for the head sentinel, whose [prev]
    is nil. *)
Lemma popTail_empty s hd tl :
  head (lru s) = Some hd → tail (lru s) = Some tl →
  wf_list (heap s) hd tl [] → popTail s = Err NilDeref.
Proof.
  intros Hhd Htl [HN Hl Hh Hp Hn].
  destruct (Hl 0 hd tl eq_refl eq_refl) as [Hhn Htp].
  unfold popTail, bind at 1, this. rewrite Htl.
  rewrite (bind_run _ _ _ _ _ (load_run prev _ _ _ Htp)).
  unfold bind at 1, removeNode.
  rewrite (bind_run _ _ _ _ _ (load_run prev _ _ _ Hp)).
  by rewrite (bind_run _ _ _ _ _ (load_run next _ _ _ Hhn)).
Qed.

(** ** The methods, branch by branch *)

Lemma this_run {A} (k : LRUCache → M A) s : bind this k s = k (lru s) s.
Proof. done. Qed.

Lemma Inv_lookup s it1 a k v it2 :
  Inv s (it1 ++ (a, k, v) :: it2) → cache (lru s) !! k = Some (Some a).
Proof.
  intros (hd & tl & _ & _ & _ & HN & ->). apply index_lookup; [done|].
  exists a, v. split; [done|]. apply elem_of_app. right. left.
Qed.

Lemma Inv_lookup_None s it k : Inv s it → k ∉ keys it → cache (lru s) !! k = None.
Proof. intros (hd & tl & _ & _ & _ & HN & ->) Hni. by apply index_lookup_None. Qed.

Lemma Inv_size s it : Inv s it → size (cache (lru s)) = length it.
Proof. intros (hd & tl & _ & _ & _ & HN & ->). by apply index_size. Qed.

Lemma Get_miss s k : cache (lru s) !! k = None → Get k s = Ok ((zero, false), s).
Proof. intros Hk. unfold Get. rewrite this_run; cbv beta; rewrite Hk. done. Qed.

Lemma Get_hit s it1 a k v it2 :
  Inv s (it1 ++ (a, k, v) :: it2) →
  ∃ s', Get k s = Ok ((v, true), s') ∧ Inv s' ((a, k, v) :: it1 ++ it2) ∧
        lru s' = lru s ∧ length (heap s') = length (heap s).
Proof.
  intros HI. pose proof (Inv_lookup _ _ _ _ _ _ HI) as Hk.
  destruct HI as (hd & tl & Hhd & Htl & Hwf & HN & Hc).
  destruct (moveToHead_run s hd tl it1 a k v it2 Hhd Hwf) as (h' & Hrun & Hwf' & Hlen).
  exists (with_heap (λ _, h') s). split_and!; [| |done|done].
  - unfold Get. rewrite this_run; cbv beta; rewrite Hk. rewrite (bind_run _ _ _ _ _ Hrun).
    destruct (wf_holds _ _ _ _ Hwf' a k v) as [_ Hv]; [left|].
    by rewrite (bind_run _ _ _ _ _ (load_run value a v (with_heap (λ _, h') s) Hv)).
  - exists hd, tl. split_and!; [done|done|done|by eapply keys_front|].
    simpl. rewrite Hc. symmetry. by apply index_front.
Qed.

Lemma Put_hit s it1 a k v v' it2 :
  Inv s (it1 ++ (a, k, v) :: it2) →
  ∃ s', Put k v' s = Ok (tt, s') ∧ Inv s' ((a, k, v') :: it1 ++ it2) ∧
        lru s' = lru s ∧ length (heap s') = length (heap s).
Proof.
  intros HI. pose proof (Inv_lookup _ _ _ _ _ _ HI) as Hk.
  destruct HI as (hd & tl & Hhd & Htl & Hwf & HN & Hc).
  assert (is_Some (heap s !! a)) as Sa.
  { eapply wf_in_range; [done|]. rewrite chain_middle. apply elem_of_app. right. left. }
  pose proof (wf_set_value _ _ _ _ _ _ _ v' _ Hwf) as Hwf1.
  destruct (moveToHead_run (with_heap (alter (set_value v') a) s) hd tl it1 a k v' it2 Hhd Hwf1)
    as (h' & Hrun & Hwf' & Hlen).
  exists (with_heap (λ _, h') s). split_and!; [| |done|].
  - unfold Put. rewrite this_run; cbv beta; rewrite Hk. rewrite (bind_run _ _ _ _ _ (store_run _ _ _ Sa)).
    exact Hrun.
  - exists hd, tl. split_and!; [done|done|done|by eapply keys_front|].
    simpl. rewrite Hc. symmetry. by apply index_front.
  - simpl. rewrite Hlen. simpl. by rewrite length_alter.
Qed.

Lemma chain_snoc_in hd tl it (e : item) x : x ∈ chain hd tl it → x ∈ chain hd tl (it ++ [e]).
Proof.
  rewrite chain_middle. unfold chain. simpl. rewrite !elem_of_cons, !elem_of_app, !elem_of_cons.
  tauto.
Qed.

Lemma fld_alloc {A} (f : Node → A) (h : list Node) n : fld f (h ++ [n]) (length h) = Some (f n).
Proof. unfold fld. by rewrite list_lookup_middle. Qed.

Lemma Put_new s it k v :
  Inv s it → k ∉ keys it → (Z.of_nat (length it) < capacity (lru s))%Z →
  ∃ s', Put k v s = Ok (tt, s') ∧ Inv s' ((length (heap s), k, v) :: it) ∧
        capacity (lru s') = capacity (lru s).
Proof.
  intros HI Hni Hcap. pose proof (Inv_lookup_None _ _ _ HI Hni) as Hk.
  pose proof (Inv_size _ _ HI) as Hsz.
  destruct HI as (hd & tl & Hhd & Htl & Hwf & HN & Hc).
  set (node := {| key := k; value := v; prev := None; next := None |}).
  destruct (wf_alloc _ _ _ _ node Hwf) as [Hwf1 Hfresh].
  set (s1 := with_cache (insert k (Some (length (heap s))))
               (with_heap (λ h, h ++ [node]) s)).
  destruct (insert_run s1 hd tl it (length (heap s)) k v) as (h' & Hrun & Hwf' & Hlen);
    [done|done|done|apply (fld_alloc key)|apply (fld_alloc value)|].
  exists (with_heap (λ _, h') s1). split_and!; [| |done].
  - unfold Put. rewrite this_run; cbv beta; rewrite Hk. unfold bind at 1, alloc.
    rewrite Hsz. rewrite Z.geb_leb, (proj2 (Z.leb_gt _ _)) by done.
    exact Hrun.
  - exists hd, tl. split_and!; [done|done|done| |].
    + unfold keys. rewrite fmap_cons. apply NoDup_cons. by split.
    + simpl. rewrite Hc. by rewrite index_cons.
Qed.

Lemma Put_evict s it a kb vb k v :
  Inv s (it ++ [(a, kb, vb)]) → k ∉ keys (it ++ [(a, kb, vb)]) →
  (capacity (lru s) ≤ Z.of_nat (length (it ++ [(a, kb, vb)])))%Z →
  ∃ s', Put k v s = Ok (tt, s') ∧ Inv s' ((length (heap s), k, v) :: it) ∧
        capacity (lru s') = capacity (lru s).
Proof.
  intros HI Hni Hcap. pose proof (Inv_lookup_None _ _ _ HI Hni) as Hk.
  pose proof (Inv_size _ _ HI) as Hsz.
  destruct HI as (hd & tl & Hhd & Htl & Hwf & HN & Hc).
  set (node := {| key := k; value := v; prev := None; next := None |}).
  destruct (wf_alloc _ _ _ _ node Hwf) as [Hwf1 Hfresh].
  set (s1 := with_heap (λ h, h ++ [node]) s).
  destruct (popTail_run s1 hd tl it a kb vb Hhd Htl Hwf1)
    as (h2 & Hpop & Hwf2 & Hlen2 & Hkey2 & Hval2).
  destruct (wf_holds _ _ _ _ Hwf1 a kb vb) as [Hka _]; [apply elem_of_app; right; left|].
  set (s2 := with_cache (insert k (Some (length (heap s))))
               (with_cache (delete kb) (with_heap (λ _, h2) s1))).
  destruct (insert_run s2 hd tl it (length (heap s)) k v) as (h' & Hrun & Hwf' & Hlen);
    [done|done| | | |].
  { intros Hin. by apply Hfresh, chain_snoc_in. }
  { simpl. rewrite Hkey2. apply (fld_alloc key). }
  { simpl. rewrite Hval2. apply (fld_alloc value). }
  exists (with_heap (λ _, h') s2). split_and!; [| |done].
  - unfold Put. rewrite this_run; cbv beta; rewrite Hk. unfold bind at 1, alloc.
    rewrite Hsz. rewrite Z.geb_leb, (proj2 (Z.leb_le _ _)) by done.
    fold node. fold s1. unfold bind at 1. unfold bind at 1. rewrite Hpop.
    assert (fld key (heap (with_heap (λ _, h2) s1)) a = Some kb) as Hka'
      by (simpl; by rewrite Hkey2).
    rewrite (bind_run _ _ _ _ _ (load_run key _ _ _ Hka')).
    exact Hrun.
  - assert (NoDup (keys it) ∧ kb ∉ keys it) as [HNit Hkb].
    { unfold keys in *. rewrite fmap_app in HN. apply NoDup_app in HN as (? & Hd & _).
      split; [done|]. intros Hin. apply (Hd kb Hin). left. }
    exists hd, tl. split_and!; [done|done|done| |].
    + unfold keys in *. rewrite fmap_cons. apply NoDup_cons. split; [|done].
      intros Hin. apply Hni. rewrite fmap_app. apply elem_of_app. by left.
    + simpl. rewrite Hc. rewrite index_delete_last by done. by rewrite index_cons.
Qed.

Lemma Put_fault s k v :
  Inv s [] → (capacity (lru s) ≤ 0)%Z → Put k v s = Err NilDeref.
Proof.
  intros HI Hcap. pose proof (Inv_size _ _ HI) as Hsz.
  assert (cache (lru s) !! k = None) as Hk.
  { apply (Inv_lookup_None _ _ _ HI). apply not_elem_of_nil. }
  destruct HI as (hd & tl & Hhd & Htl & Hwf & HN & Hc).
  set (node := {| key := k; value := v; prev := None; next := None |}).
  destruct (wf_alloc _ _ _ _ node Hwf) as [Hwf1 _].
  unfold Put. rewrite this_run; cbv beta; rewrite Hk.
  unfold bind at 1, alloc. rewrite Hsz.
  rewrite Z.geb_leb, (proj2 (Z.leb_le _ _)) by done.
  fold node. unfold bind at 1. unfold bind at 1.
  by rewrite (popTail_empty (with_heap (λ h, h ++ [node]) s) hd tl).
Qed.

(** ** The constructor establishes the invariant *)

Lemma Constructor_Inv cap h0 : Inv (Constructor cap h0) [].
Proof.
  assert ((h0 ++ [zero_node; zero_node]) !! length h0 = Some zero_node) as Hhd
    by by apply list_lookup_middle.
  assert ((h0 ++ [zero_node; zero_node]) !! S (length h0) = Some zero_node) as Htl.
  { rewrite lookup_app_r by lia.
    by replace (S (length h0) - length h0) with 1 by lia. }
  assert (length h0 ≠ S (length h0)) as Hne by lia.
  exists (length h0), (S (length h0)).
  split_and!; [done|done| |constructor|done].
  unfold Constructor. cbn [heap]. constructor.
  - unfold chain. simpl. apply NoDup_cons. split; [|apply NoDup_singleton].
    by intros ?%list_elem_of_singleton.
  - intros i a b Ha Hb. unfold chain in Ha, Hb.
    destruct i as [|[|i]]; simpl in Ha, Hb; try done.
    injection Ha as <-. injection Hb as <-. split.
    + rewrite fld_alter_frame by done. apply fld_alter_eq; [by eexists|reflexivity].
    + apply fld_alter_eq; [|reflexivity]. apply alter_is_Some. by eexists.
  - intros a k v Hin. by apply elem_of_nil in Hin.
  - rewrite fld_alter_ne by done. rewrite fld_alter_frame by done.
    unfold fld. by rewrite Hhd.
  - rewrite fld_alter_frame by done. rewrite fld_alter_ne by done.
    unfold fld. by rewrite Htl.
Qed.

(** ** Each operation follows [step] *)

Lemma keys_app it1 it2 : keys (it1 ++ it2) = keys it1 ++ keys it2.
Proof. unfold keys. by rewrite fmap_app. Qed.

Lemma step_total n cap o it : ∃ r, step n cap o it r.
Proof.
  destruct (decide (op_key o ∈ keys it)) as [Hin|Hni].
  - apply list_elem_of_fmap in Hin as ([[a k] v] & Hk & Hin). simpl in Hk.
    apply list_elem_of_split in Hin as (it1 & it2 & ->).
    destruct o as [k'|k' v']; simpl in Hk; subst k'; eexists;
      [apply step_get_hit|apply step_put_hit].
  - destruct o as [k|k v]; simpl in Hni.
    + eexists. by apply step_get_miss.
    + destruct (decide (Z.of_nat (length it) < cap)%Z) as [Hlt|Hge].
      * eexists. by apply step_put_new.
      * destruct it as [|e it _] using rev_ind.
        -- eexists. apply step_put_fault. simpl in Hge. lia.
        -- eexists. apply step_put_evict; [done|lia].
Qed.

Lemma exec_step s it o r :
  Inv s it → step (length (heap s)) (capacity (lru s)) o it r →
  match r with
  | Some it' => ∃ s', exec o s = Ok (tt, s') ∧ Inv s' it' ∧
                      capacity (lru s') = capacity (lru s)
  | None => exec o s = Err NilDeref
  end.
Proof.
  intros HI Hstep. destruct Hstep as [k it Hni|k it1 a v it2|k v' it1 a v it2
    |k v it Hni Hcap|k v it e Hni Hcap|k v Hcap]; simpl.
  - exists s. split_and!; [|done|done].
    unfold bind. by rewrite (Get_miss s k (Inv_lookup_None _ _ _ HI Hni)).
  - destruct (Get_hit _ _ _ _ _ _ HI) as (s' & Hrun & HI' & Hlru & _).
    exists s'. split_and!; [|done|by rewrite Hlru]. unfold bind. by rewrite Hrun.
  - destruct (Put_hit _ _ _ _ _ v' _ HI) as (s' & Hrun & HI' & Hlru & _).
    exists s'. split_and!; [done|done|by rewrite Hlru].
  - by apply Put_new.
  - destruct e as [[a kb] vb]. by apply (Put_evict s it a kb vb).
  - by apply Put_fault.
Qed.

Lemma step_length n cap o it it' :
  step n cap o it (Some it') → (Z.of_nat (length it) ≤ cap)%Z →
  (Z.of_nat (length it') ≤ cap)%Z.
Proof.
  inversion 1; subst; intros Hlen; try done;
    rewrite ?length_app in *; simpl in *; rewrite ?length_app in *; simpl in *; lia.
Qed.

Lemma step_no_fault n cap o it : (1 ≤ cap)%Z → ¬ step n cap o it None.
Proof. intros Hcap Hstep. inversion Hstep. lia. Qed.

(** ** Recency *)

Lemma age_cons o past k :
  age (o :: past) k = if decide (op_key o = k) then Some 0 else S <$> age past k.
Proof.
  unfold age. simpl. case_decide; [done|].
  by destruct (list_find (λ o', op_key o' = k) past) as [[i x]|].
Qed.

Lemma fresher_touch o past ks :
  op_key o ∉ ks → Forall (λ k, is_Some (age past k)) ks →
  Forall (fresher (o :: past) (op_key o)) ks.
Proof.
  intros Hni Hall. apply Forall_forall. intros k Hin.
  rewrite Forall_forall in Hall. destruct (Hall k Hin) as [n Hn].
  exists 0, (S n). rewrite !age_cons, decide_True by done. split; [done|].
  rewrite decide_False by (by intros <-). rewrite Hn. split; [done|lia].
Qed.

Lemma recency_miss o past ks :
  op_key o ∉ ks → by_recency past ks → by_recency (o :: past) ks.
Proof.
  intros Hni [Hall Hs]. split.
  - apply Forall_forall. intros k Hin. rewrite Forall_forall in Hall.
    destruct (Hall k Hin) as [n Hn]. rewrite age_cons, decide_False by (by intros <-).
    rewrite Hn. by eexists.
  - clear Hall. induction Hs as [|k ks Hs IH Hk]; [constructor|].
    apply not_elem_of_cons in Hni as [Hne Hni]. constructor; [by apply IH|].
    apply Forall_forall. intros k' Hin. rewrite Forall_forall in Hk.
    destruct (Hk k' Hin) as (n1 & n2 & Hn1 & Hn2 & Hlt).
    exists (S n1), (S n2). rewrite !age_cons.
    rewrite decide_False by done. rewrite decide_False by (by intros <-).
    rewrite Hn1, Hn2. split_and!; [done|done|lia].
Qed.

Lemma recency_touch o past ks :
  op_key o ∉ ks → by_recency past ks → by_recency (o :: past) (op_key o :: ks).
Proof.
  intros Hni Hr. pose proof (recency_miss o past ks Hni Hr) as [Hall Hs].
  split.
  - constructor; [|done]. rewrite age_cons, decide_True by done. by eexists.
  - constructor; [done|]. apply fresher_touch; [done|apply Hr].
Qed.

Lemma recency_delete past ks1 k ks2 :
  by_recency past (ks1 ++ k :: ks2) → by_recency past (ks1 ++ ks2).
Proof.
  intros [Hall Hs]. split.
  - apply Forall_app in Hall as [? Hall]. apply Forall_cons in Hall as [_ ?].
    by apply Forall_app.
  - apply StronglySorted_app in Hs as (Hx & Hs1 & Hs2).
    apply StronglySorted_cons in Hs2 as [_ Hs2].
    apply StronglySorted_app. split_and!; [|done|done].
    intros x1 x2 Hx1 Hx2. apply Hx; [done|by right].
Qed.

Lemma step_recency n cap o it it' past :
  NoDup (keys it) → by_recency past (keys it) → step n cap o it (Some it') →
  by_recency (o :: past) (keys it').
Proof.
  intros HN Hr Hstep. inversion Hstep; subst.
  - by apply (recency_miss (OGet k)).
  - rewrite keys_app in HN, Hr. change (keys ((a, k, v) :: it2)) with (k :: keys it2) in *.
    change (keys ((a, k, v) :: it1 ++ it2)) with (op_key (OGet k) :: keys (it1 ++ it2)).
    rewrite keys_app. apply recency_touch; [|by eapply recency_delete].
    simpl. apply NoDup_app in HN as (_ & Hd & HN2). apply NoDup_cons in HN2 as [Hni _].
    intros [Hin|Hin]%elem_of_app; [|done]. apply (Hd k Hin). left.
  - rewrite keys_app in HN, Hr. change (keys ((a, k, v) :: it2)) with (k :: keys it2) in *.
    change (keys ((a, k, v') :: it1 ++ it2)) with (op_key (OPut k v') :: keys (it1 ++ it2)).
    rewrite keys_app. apply recency_touch; [|by eapply recency_delete].
    simpl. apply NoDup_app in HN as (_ & Hd & HN2). apply NoDup_cons in HN2 as [Hni _].
    intros [Hin|Hin]%elem_of_app; [|done]. apply (Hd k Hin). left.
  - by apply (recency_touch (OPut k v)).
  - rewrite keys_app in *. simpl in *.
    apply (recency_touch (OPut k v)).
    + simpl. intros Hin. match goal with Hni : _ ∉ _ |- _ => apply Hni end.
      apply elem_of_app. by left.
    + rewrite <-(app_nil_r (keys it0)). by eapply recency_delete.
Qed.

(** ** Reachable states *)

Lemma run_Inv ops :
  ∀ s it s', Inv s it → run ops s = Ok s' →
    ∃ it', Inv s' it' ∧ capacity (lru s') = capacity (lru s).
Proof.
  induction ops as [|o ops IH]; intros s it s' HI Hrun; simpl in Hrun.
  - simplify_eq. by exists it.
  - destruct (step_total (length (heap s)) (capacity (lru s)) o it) as [r Hstep].
    pose proof (exec_step _ _ _ _ HI Hstep) as Hexec. destruct r as [it1|].
    + destruct Hexec as (s1 & Hexec & HI1 & Hcap). rewrite Hexec in Hrun.
      destruct (IH _ _ _ HI1 Hrun) as (it' & HI' & Hcap'). exists it'. split; [done|congruence].
    + by rewrite Hexec in Hrun.
Qed.

Lemma run_bounded ops :
  ∀ s it past,
    Inv s it → (1 ≤ capacity (lru s))%Z → (Z.of_nat (length it) ≤ capacity (lru s))%Z →
    by_recency past (keys it) →
    ∃ s' it', run ops s = Ok s' ∧ Inv s' it' ∧ capacity (lru s') = capacity (lru s) ∧
              (Z.of_nat (length it') ≤ capacity (lru s))%Z ∧
              by_recency (rev ops ++ past) (keys it').
Proof.
  induction ops as [|o ops IH]; intros s it past HI Hcap Hlen Hrec; simpl.
  - by exists s, it.
  - destruct (step_total (length (heap s)) (capacity (lru s)) o it) as [r Hstep].
    pose proof (exec_step _ _ _ _ HI Hstep) as Hexec. destruct r as [it1|].
    + destruct Hexec as (s1 & Hexec & HI1 & Hcap1). rewrite Hexec.
      destruct (IH s1 it1 (o :: past)) as (s' & it' & Hrun & HI' & Hcap' & Hlen' & Hrec').
      * done.
      * by rewrite Hcap1.
      * rewrite Hcap1. by eapply step_length.
      * eapply step_recency; [|done|done]. by destruct HI as (? & ? & ? & ? & ? & ? & ?).
      * exists s', it'. rewrite <-app_assoc. simpl.
        split_and!; [done|done|congruence|by rewrite <-Hcap1|done].
    + by apply step_no_fault in Hstep.
Qed.

Lemma reach_bounded cap h0 ops :
  (1 ≤ cap)%Z →
  ∃ s it, run ops (Constructor cap h0) = Ok s ∧ Inv s it ∧ capacity (lru s) = cap ∧
          (Z.of_nat (length it) ≤ cap)%Z ∧ by_recency (rev ops) (keys it).
Proof.
  intros Hcap.
  destruct (run_bounded ops (Constructor cap h0) [] [])
    as (s & it & Hrun & HI & Hc & Hlen & Hrec).
  - apply Constructor_Inv.
  - done.
  - simpl. lia.
  - split; constructor.
  - exists s, it. rewrite app_nil_r in Hrec. done.
Qed.

Lemma reach_Inv cap h0 ops s :
  run ops (Constructor cap h0) = Ok s → ∃ it, Inv s it ∧ capacity (lru s) = cap.
Proof. intros Hrun. by apply (run_Inv ops _ [] s (Constructor_Inv cap h0)). Qed.

(** ** Presence and stored values *)

Lemma contents_keys it : (contents it).*1 = keys it.
Proof. unfold contents, keys. by rewrite <-list_fmap_compose. Qed.

Lemma Inv_present s it k :
  Inv s it → is_Some (cache (lru s) !! k) → ∃ it1 a v it2, it = it1 ++ (a, k, v) :: it2.
Proof.
  intros (hd & tl & _ & _ & _ & HN & Hc) [p Hp]. rewrite Hc in Hp.
  apply index_lookup in Hp as (a & v & _ & Hin); [|done].
  apply list_elem_of_split in Hin as (it1 & it2 & ->). by exists it1, a, v, it2.
Qed.

Lemma stored_iff s it k v : Inv s it → stored s k = Some v ↔ (k, v) ∈ contents it.
Proof.
  intros (hd & tl & _ & _ & Hwf & HN & Hc). unfold stored. rewrite Hc. split.
  - destruct (index_of it !! k) as [[a|]|] eqn:Hk; [|done|done]. intros Hv.
    apply index_lookup in Hk as (a' & v' & Ha & Hin); [|done]. simplify_eq.
    destruct (wf_holds _ _ _ _ Hwf a' k v' Hin) as [_ Hv'].
    assert (v = v') as -> by congruence.
    unfold contents. apply list_elem_of_fmap. by exists (a', k, v').
  - intros ([[a k'] v'] & Heq & Hin)%list_elem_of_fmap. simpl in Heq.
    injection Heq as <- <-.
    assert (index_of it !! k = Some (Some a)) as ->.
    { apply index_lookup; [done|]. by exists a, v. }
    by destruct (wf_holds _ _ _ _ Hwf a k v Hin).
Qed.

(** ** Moving the front node to the front *)

Lemma relink_id (h : list Node) hd a x :
  hd ≠ a → hd ≠ x → a ≠ x →
  fld next h hd = Some (Some a) → fld prev h a = Some (Some hd) →
  fld next h a = Some (Some x) → fld prev h x = Some (Some a) →
  push hd a x (unlink hd x h) = h.
Proof.
  intros H1' H2' H3' Hhn Hap Han Hxp. apply list_eq. intros i.
  unfold push, unlink, fld in *. rewrite !list_lookup_alter.
  repeat case_decide; subst; try done;
    destruct (h !! i) as [[kk vv pp nn]|]; simpl in *; simplify_eq; done.
Qed.

Lemma moveToHead_front s a k v it :
  Inv s ((a, k, v) :: it) → moveToHead (Some a) s = Ok (tt, s).
Proof.
  intros (hd & tl & Hhd & Htl & Hwf & HN & Hc).
  pose proof (wf_nodup _ _ _ _ Hwf) as HND. pose proof (wf_linked _ _ _ _ Hwf) as Hl.
  unfold chain in HND, Hl. simpl in HND, Hl.
  destruct (addrs it ++ [tl]) as [|x rest] eqn:E; [by destruct (addrs it)|].
  destruct (Hl 0 hd a eq_refl eq_refl) as [Hhn Hap].
  destruct (Hl 1 a x eq_refl eq_refl) as [Han Hxp].
  assert (hd ≠ a ∧ hd ≠ x ∧ a ≠ x) as (Hne1 & Hne2 & Hne3).
  { assert ((hd :: a :: x :: rest) !! 0 = Some hd) as E0 by done.
    assert ((hd :: a :: x :: rest) !! 1 = Some a) as E1 by done.
    assert ((hd :: a :: x :: rest) !! 2 = Some x) as E2 by done.
    split_and!; distinct. }
  unfold moveToHead.
  rewrite (bind_run _ _ _ _ _ (removeNode_run a hd x s Hap Han
    ltac:(by eapply fld_is_Some) ltac:(by eapply fld_is_Some))).
  rewrite (addNode_run a hd x); [|done|done| | |].
  - f_equal. f_equal. destruct s as [h c]. unfold with_heap. simpl in *.
    f_equal. by apply relink_id.
  - simpl. unfold unlink. rewrite !alter_is_Some. by eapply fld_is_Some.
  - simpl. unfold unlink. rewrite fld_alter_frame by done.
    apply fld_alter_eq; [by eapply fld_is_Some|reflexivity].
  - simpl. unfold unlink. rewrite !alter_is_Some. by eapply fld_is_Some.
Qed.

Lemma Get_front s a k v it :
  Inv s ((a, k, v) :: it) → Get k s = Ok ((v, true), s).
Proof.
  intros HI. pose proof (Inv_lookup s [] a k v it HI) as Hk.
  pose proof (moveToHead_front _ _ _ _ _ HI) as Hmove.
  destruct HI as (hd & tl & _ & _ & Hwf & _ & _).
  destruct (wf_holds _ _ _ _ Hwf a k v) as [_ Hv]; [left|].
  unfold Get. rewrite this_run; cbv beta; rewrite Hk.
  rewrite (bind_run _ _ _ _ _ Hmove).
  by rewrite (bind_run _ _ _ _ _ (load_run value _ _ _ Hv)).
Qed.

Lemma step_put_front n cap k v it it' :
  step n cap (OPut k v) it (Some it') → ∃ a rest, it' = (a, k, v) :: rest.
Proof. inversion 1; subst; eauto. Qed.


Lemma Display_size s it fuel :
  Inv s it → size (cache (lru s)) ≤ fuel → Display fuel s = Ok (contents it, s).
Proof.
  intros HI Hfuel. apply Display_run; [done|]. by rewrite <-(Inv_size _ _ HI).
Qed.


(** ** The properties of the specification *)





Lemma contents_front it1 (e e' : item) it2 kv :
  kv.1 ≠ e.1.2 → e'.1.2 = e.1.2 →
  kv ∈ contents (e' :: it1 ++ it2) ↔ kv ∈ contents (it1 ++ e :: it2).
Proof.
  intros Hne Hk. unfold contents. rewrite fmap_cons, !fmap_app, fmap_cons.
  rewrite elem_of_cons, !elem_of_app, elem_of_cons.
  split.
  - intros [Heq|[Hin|Hin]]; [|tauto|tauto]. subst kv. simpl in Hne. congruence.
  - intros [Hin|[Heq|Hin]]; [tauto| |tauto]. subst kv. simpl in Hne. congruence.
Qed.

(** C5 — [Get] of a present key.  In any reachable state, [Get k] for a key
    of the index returns the value stored for [k] with [found = true]; no
    stored value and no index entry changes, and the traversal only moves
    [k]'s entry to the front. *)
Theorem Get_present cap h0 ops s k :
  run ops (Constructor cap h0) = Ok s → is_Some (cache (lru s) !! k) →
  ∃ v s' l1 l2,
    stored s k = Some v ∧
    Get k s = Ok ((v, true), s') ∧
    (∀ k', stored s' k' = stored s k') ∧
    cache (lru s') = cache (lru s) ∧
    Display (size (cache (lru s))) s = Ok (l1 ++ (k, v) :: l2, s) ∧
    Display (size (cache (lru s'))) s' = Ok ((k, v) :: l1 ++ l2, s').
Proof.
  intros Hrun Hin. destruct (reach_Inv _ _ _ _ Hrun) as (it & HI & _).
  destruct (Inv_present _ _ _ HI Hin) as (it1 & a & v & it2 & ->).
  destruct (Get_hit _ _ _ _ _ _ HI) as (s' & HGet & HI' & Hlru & _).
  exists v, s', (contents it1), (contents it2). split_and!.
  - apply (stored_iff _ _ _ _ HI). unfold contents. rewrite fmap_app.
    apply elem_of_app. right. left.
  - done.
  - intros k'. apply option_eq. intros w.
    rewrite (stored_iff _ _ _ _ HI'), (stored_iff _ _ _ _ HI).
    unfold contents. rewrite fmap_cons, !fmap_app, fmap_cons.
    rewrite elem_of_cons, !elem_of_app, elem_of_cons. tauto.
  - by rewrite Hlru.
  - rewrite (Display_size _ _ _ HI) by done. unfold contents. by rewrite fmap_app.
  - rewrite (Display_size _ _ _ HI') by done. unfold contents.
    by rewrite fmap_cons, fmap_app.
Qed.

(** C6 — [Put] of a present key.  In any reachable state, [Put k v] for a key
    of the index stores [v] for [k], keeps every other stored value, moves
    [k]'s entry to the front of the traversal and leaves the index, hence the
    key set and the size, as they were. *)
Theorem Put_present cap h0 ops s k v :
  run ops (Constructor cap h0) = Ok s → is_Some (cache (lru s) !! k) →
  ∃ v0 s' l1 l2,
    Put k v s = Ok (tt, s') ∧
    stored s' k = Some v ∧
    (∀ k', k' ≠ k → stored s' k' = stored s k') ∧
    cache (lru s') = cache (lru s) ∧
    dom (cache (lru s')) = dom (cache (lru s)) ∧
    size (cache (lru s')) = size (cache (lru s)) ∧
    Display (size (cache (lru s))) s = Ok (l1 ++ (k, v0) :: l2, s) ∧
    Display (size (cache (lru s'))) s' = Ok ((k, v) :: l1 ++ l2, s').
Proof.
  intros Hrun Hin. destruct (reach_Inv _ _ _ _ Hrun) as (it & HI & _).
  destruct (Inv_present _ _ _ HI Hin) as (it1 & a & v0 & it2 & ->).
  destruct (Put_hit _ _ _ _ _ v _ HI) as (s' & HPut & HI' & Hlru & _).
  exists v0, s', (contents it1), (contents it2). split_and!.
  - done.
  - apply (stored_iff _ _ _ _ HI'). simpl. left.
  - intros k' Hne. apply option_eq. intros w.
    rewrite (stored_iff _ _ _ _ HI'), (stored_iff _ _ _ _ HI).
    by apply contents_front.
  - by rewrite Hlru.
  - by rewrite Hlru.
  - by rewrite Hlru.
  - rewrite (Display_size _ _ _ HI) by done. unfold contents. by rewrite fmap_app.
  - rewrite (Display_size _ _ _ HI') by done. unfold contents.
    by rewrite fmap_cons, fmap_app.
Qed.

(** C7 — [Get] of an absent key.  In any state whatever, [Get k] for a key
    that is not in the index returns the zero value with [found = false] as
    an ordinary result and leaves the state, heap and index alike, as it
    was. *)
Theorem Get_absent (s : state) k :
  cache (lru s) !! k = None → Get k s = Ok ((zero, false), s).
Proof.
  intros Hk. unfold Get, bind, this.
  (* the lookup misses, so [Get] takes its first return *)
  rewrite Hk. reflexivity.
Qed.

(** C8 — repeated [Get].  In any reachable state, two [Get k] in a row on a
    present key return the same value with [found = true], and the second
    leaves the state exactly as the first left it. *)
Theorem Get_twice cap h0 ops s k :
  run ops (Constructor cap h0) = Ok s → is_Some (cache (lru s) !! k) →
  ∃ v s1, Get k s = Ok ((v, true), s1) ∧ Get k s1 = Ok ((v, true), s1).
Proof.
  intros Hrun Hin. destruct (reach_Inv _ _ _ _ Hrun) as (it & HI & _).
  destruct (Inv_present _ _ _ HI Hin) as (it1 & a & v & it2 & ->).
  destruct (Get_hit _ _ _ _ _ _ HI) as (s1 & HGet & HI1 & _).
  exists v, s1. split; [done|]. by eapply Get_front.
Qed.

(** C9 — [popTail] is safe.  In every state reached from a cache of capacity
    at least 1, [Get] and [Put] return without a fault, and whenever [Put]
    takes its eviction branch the index is not empty and [popTail], run where
    [Put] calls it, detaches a node that the index points at, which is
    neither sentinel. *)
Theorem popTail_safe cap h0 ops :
  (1 ≤ cap)%Z →
  ∃ s,
    run ops (Constructor cap h0) = Ok s ∧
    (∀ k, ∃ r s', Get k s = Ok (r, s')) ∧
    (∀ k v, ∃ s', Put k v s = Ok (tt, s')) ∧
    (∀ k v,
       cache (lru s) !! k = None →
       (Z.of_nat (size (cache (lru s))) >=? capacity (lru s))%Z = true →
       1 ≤ size (cache (lru s)) ∧
       ∃ a kb s1,
         popTail (with_heap
                    (λ h, h ++ [{| key := k; value := v; prev := None; next := None |}])
                    s) = Ok (Some a, s1) ∧
         Some a ≠ head (lru s) ∧ Some a ≠ tail (lru s) ∧
         cache (lru s) !! kb = Some (Some a)).
Proof.
  intros Hcap.
  destruct (reach_bounded cap h0 ops Hcap) as (s & it & Hrun & HI & Hc & Hlen & _).
  exists s. split_and!; [done| | |].
  - intros k.
    destruct (step_total (length (heap s)) (capacity (lru s)) (OGet k) it) as [r Hstep].
    pose proof (exec_step _ _ _ _ HI Hstep) as Hexec. destruct r as [it'|].
    + destruct Hexec as (s' & Hexec & _). simpl in Hexec. unfold bind in Hexec.
      destruct (Get k s) as [[r s'']|]; [by eauto|done].
    + apply step_no_fault in Hstep; [done|by rewrite Hc].
  - intros k v.
    destruct (step_total (length (heap s)) (capacity (lru s)) (OPut k v) it) as [r Hstep].
    pose proof (exec_step _ _ _ _ HI Hstep) as Hexec. destruct r as [it'|].
    + destruct Hexec as (s' & Hexec & _). by exists s'.
    + apply step_no_fault in Hstep; [done|by rewrite Hc].
  - intros k v Hk Hfull. pose proof (Inv_size _ _ HI) as Hsize.
    rewrite Z.geb_leb in Hfull. apply Z.leb_le in Hfull.
    split; [lia|].
    destruct it as [|[[a kb] vb] it _] using rev_ind; [simpl in Hsize; lia|].
    pose proof (Inv_lookup _ _ _ _ _ _ HI) as Hkb.
    destruct HI as (hd & tl & Hhd & Htl & Hwf & HN & Hcache).
    set (node := {| key := k; value := v; prev := None; next := None |}).
    destruct (wf_alloc _ _ _ _ node Hwf) as [Hwf1 _].
    destruct (popTail_run (with_heap (λ h, h ++ [node]) s) hd tl it a kb vb Hhd Htl Hwf1)
      as (h2 & Hpop & _).
    exists a, kb, (with_heap (λ _, h2) (with_heap (λ h, h ++ [node]) s)).
    pose proof (wf_nodup _ _ _ _ Hwf) as HND. rewrite chain_middle in HND.
    split_and!; [done| | |done].
    + rewrite Hhd. intros [= ->]. apply NoDup_app in HND as (_ & Hd & _).
      apply (Hd hd); left.
    + rewrite Htl. intros [= ->]. apply NoDup_app in HND as (_ & _ & HND).
      apply NoDup_cons in HND as [Hni _]. apply Hni. simpl. left.
Qed.

(** C10 — a capacity of zero or less.  [Constructor] stores any capacity as
    given; with a capacity of zero or less the first [Put], also when [Get]s
    come before it, takes the eviction branch on an empty list: [popTail]
    reads the head sentinel out of [tail.prev], the head's [prev] is nil, and
    [removeNode] stops on a nil dereference. *)
Theorem nonpositive_capacity_faults cap h0 k v :
  (cap ≤ 0)%Z →
  let s0 := Constructor cap h0 in
  let s1 := with_heap
              (λ h, h ++ [{| key := k; value := v; prev := None; next := None |}]) s0 in
  capacity (lru s0) = cap ∧
  (Z.of_nat (size (cache (lru s0))) >=? capacity (lru s0))%Z = true ∧
  load prev (tail (lru s1)) s1 = Ok (head (lru s1), s1) ∧
  load prev (head (lru s1)) s1 = Ok (None, s1) ∧
  removeNode (head (lru s1)) s1 = Err NilDeref ∧
  popTail s1 = Err NilDeref ∧
  Put k v s0 = Err NilDeref ∧
  (∀ ks, run ((OGet <$> ks) ++ [OPut k v]) s0 = Err NilDeref).
Proof.
  intros Hcap s0 s1. pose proof (Constructor_Inv cap h0) as HI. fold s0 in HI.
  pose proof (Put_fault s0 k v HI Hcap) as HPut.
  destruct HI as (hd & tl & Hhd & Htl & Hwf & _ & Hcache).
  destruct (wf_alloc _ _ _ _ {| key := k; value := v; prev := None; next := None |} Hwf)
    as [Hwf1 _].
  destruct (wf_linked _ _ _ _ Hwf1 0 hd tl eq_refl eq_refl) as [Hhn Htp].
  pose proof (wf_head _ _ _ _ Hwf1) as Hhp.
  change (lru s1) with (lru s0). rewrite Hhd, Htl.
  split_and!; [done| | | | | |done|].
  - rewrite Z.geb_leb. apply Z.leb_le. simpl. rewrite map_size_empty. simpl in Hcap. lia.
  - by apply load_run.
  - by apply load_run.
  - unfold removeNode. rewrite (bind_run _ _ _ _ _ (load_run prev hd None s1 Hhp)).
    by rewrite (bind_run _ _ _ _ _ (load_run next hd (Some tl) s1 Hhn)).
  - by apply (popTail_empty s1 hd tl).
  - intros ks. induction ks as [|k' ks IH]; simpl.
    + by rewrite HPut.
    + unfold bind at 1. rewrite (Get_miss s0 k'); [done|]. simpl. apply lookup_empty.
Qed.

(** ** Further properties of the code *)

Lemma keeps_ret {A} (a : A) : keeps_config (ret a).
Proof. intros s a' s' [= _ <-]. done. Qed.

Lemma keeps_bind {A B} (m : M A) (k : A → M B) :
  keeps_config m → (∀ a, keeps_config (k a)) → keeps_config (bind m k).
Proof.
  intros Hm Hk s b s'. unfold bind. destruct (m s) as [[a s1]|] eqn:E; [|done].
  intros Hb. rewrite (Hk a _ _ _ Hb). by eapply Hm.
Qed.

Lemma keeps_this : keeps_config this.
Proof. intros s a s' [= _ <-]. done. Qed.

Lemma keeps_load {A} (f : Node → A) p : keeps_config (load f p).
Proof.
  intros s a s'. unfold load. destruct p as [b|]; [|done].
  destruct (heap s !! b); [|done]. by intros [= _ <-].
Qed.

Lemma keeps_store g p : keeps_config (store g p).
Proof.
  intros s a s'. unfold store. destruct p as [b|]; [|done].
  destruct (heap s !! b); [|done]. by intros [= _ <-].
Qed.

Lemma keeps_alloc n : keeps_config (alloc n).
Proof. intros s a s' [= _ <-]. done. Qed.

Lemma keeps_cache_insert k p : keeps_config (cache_insert k p).
Proof. intros s a s' [= _ <-]. done. Qed.

Lemma keeps_cache_delete k : keeps_config (cache_delete k).
Proof. intros s a s' [= _ <-]. done. Qed.

Create HintDb keeps.
#[local] Hint Resolve keeps_ret keeps_this keeps_load keeps_store keeps_alloc
  keeps_cache_insert keeps_cache_delete : keeps.

Ltac keeps := repeat (apply keeps_bind; [|intros]); auto with keeps.

Lemma keeps_addNode node : keeps_config (addNode node).
Proof. unfold addNode. keeps. Qed.

Lemma keeps_removeNode node : keeps_config (removeNode node).
Proof. unfold removeNode. keeps. Qed.

Lemma keeps_moveToHead node : keeps_config (moveToHead node).
Proof. unfold moveToHead. apply keeps_bind; auto using keeps_removeNode, keeps_addNode. Qed.

Lemma keeps_popTail : keeps_config popTail.
Proof. unfold popTail. keeps. Qed.

Lemma keeps_Get k : keeps_config (Get k).
Proof.
  unfold Get. apply keeps_bind; [auto with keeps|]. intros c.
  destruct (cache c !! k); [|auto with keeps].
  apply keeps_bind; [apply keeps_moveToHead|]. intros _. keeps.
Qed.

Lemma keeps_Put k v : keeps_config (Put k v).
Proof.
  unfold Put. apply keeps_bind; [auto with keeps|]. intros c.
  destruct (cache c !! k).
  - apply keeps_bind; [auto with keeps|]. intros _. apply keeps_moveToHead.
  - apply keeps_bind; [auto with keeps|]. intros newNode. apply keeps_bind.
    + destruct (Z.of_nat (size (cache c)) >=? capacity c)%Z; [|auto with keeps].
      apply keeps_bind; [apply keeps_popTail|]. intros tl. keeps.
    + intros _. apply keeps_bind; [auto with keeps|]. intros _. apply keeps_addNode.
Qed.

Lemma keeps_exec o : keeps_config (exec o).
Proof.
  destruct o; simpl; [|apply keeps_Put].
  apply keeps_bind; [apply keeps_Get|]. intros _. apply keeps_ret.
Qed.

Lemma run_config ops : ∀ s s', run ops s = Ok s' → config s' = config s.
Proof.
  induction ops as [|o ops IH]; intros s s' Hrun; simpl in Hrun.
  - by injection Hrun as <-.
  - destruct (exec o s) as [[r s1]|] eqn:E; [|done].
    rewrite (IH _ _ Hrun). by eapply keeps_exec.
Qed.

(** X1 — a new cache is empty.  Whatever the capacity and the heap it is
    built in, the traversal of a freshly constructed cache prints nothing with
    any budget, the index is empty, every [Get] misses and leaves the cache as
    it is, and the nodes that were already on the heap are untouched. *)
Theorem Constructor_empty cap h0 :
  (∀ fuel, Display fuel (Constructor cap h0) = Ok ([], Constructor cap h0)) ∧
  size (cache (lru (Constructor cap h0))) = 0 ∧
  (∀ k, Get k (Constructor cap h0) = Ok ((zero, false), Constructor cap h0)) ∧
  take (length h0) (heap (Constructor cap h0)) = h0 ∧
  length (heap (Constructor cap h0)) = length h0 + 2.
Proof.
  split_and!.
  - intros fuel. apply (Display_run _ [] fuel (Constructor_Inv cap h0)). simpl. lia.
  - done.
  - intros k. apply Get_miss. simpl. apply lookup_empty.
  - simpl. rewrite !take_alter_ge by lia. apply take_app_length.
  - simpl. rewrite !length_alter, length_app. done.
Qed.



(** X4 — [Put] of a new key below capacity.  In any reachable state whose
    size is below the capacity, [Put] of an absent key evicts nothing: the
    traversal gains [(k, v)] at the front and is otherwise the same, the size
    grows by one and every other key keeps its value. *)
Theorem Put_below_capacity cap h0 ops s k v :
  run ops (Constructor cap h0) = Ok s →
  cache (lru s) !! k = None → (Z.of_nat (size (cache (lru s))) < cap)%Z →
  ∃ s' items,
    Display (size (cache (lru s))) s = Ok (items, s) ∧
    Put k v s = Ok (tt, s') ∧
    Display (size (cache (lru s'))) s' = Ok ((k, v) :: items, s') ∧
    size (cache (lru s')) = S (size (cache (lru s))) ∧
    stored s' k = Some v ∧
    (∀ k', k' ≠ k → stored s' k' = stored s k').
Proof.
  intros Hrun Hk Hlt. destruct (reach_Inv _ _ _ _ Hrun) as (it & HI & Hc).
  pose proof (Inv_size _ _ HI) as Hsize.
  assert (k ∉ keys it) as Hni.
  { destruct HI as (? & ? & _ & _ & _ & _ & Hcache). rewrite Hcache in Hk.
    by apply index_lookup_None. }
  destruct (Put_new s it k v HI Hni) as (s' & HPut & HI' & _).
  { rewrite Hc, <-Hsize. done. }
  exists s', (contents it). split_and!.
  - by apply Display_size.
  - done.
  - by rewrite (Display_size _ _ _ HI').
  - by rewrite (Inv_size _ _ HI'), Hsize.
  - apply (stored_iff _ _ _ _ HI'). simpl. left.
  - intros k' Hne. apply option_eq. intros w.
    rewrite (stored_iff _ _ _ _ HI'), (stored_iff _ _ _ _ HI). simpl.
    rewrite elem_of_cons. split; [|tauto]. intros [[= ? ?]|?]; [done|done].
Qed.


(** X7 — a cache of capacity zero or less never holds anything.  A sequence
    of operations on such a cache runs to the end exactly when it holds no
    [Put], and then leaves the cache as it was constructed; the first [Put]
    ends the run in the nil dereference. *)
Theorem nonpositive_capacity_run cap h0 ops :
  (cap ≤ 0)%Z →
  run ops (Constructor cap h0)
  = if forallb is_get ops then Ok (Constructor cap h0) else Err NilDeref.
Proof.
  intros Hcap. induction ops as [|[k|k v] ops IH]; simpl.
  - done.
  - unfold bind. rewrite (Get_miss (Constructor cap h0) k) by apply lookup_empty.
    exact IH.
  - by rewrite (Put_fault _ k v (Constructor_Inv cap h0) Hcap).
Qed.

Lemma step_length_mono n cap o it it' :
  step n cap o it (Some it') → length it ≤ length it' ≤ S (length it).
Proof.
  inversion 1; subst; rewrite ?length_app; simpl; rewrite ?length_app; simpl; lia.
Qed.

(** X8 — no operation shrinks the cache.  In any reachable state, an
    operation that returns leaves at least as many entries in the index as it
    found, and at most one more. *)
Theorem size_never_shrinks cap h0 ops s o s' :
  run ops (Constructor cap h0) = Ok s → exec o s = Ok (tt, s') →
  size (cache (lru s)) ≤ size (cache (lru s')) ≤ S (size (cache (lru s))).
Proof.
  intros Hrun Hexec. destruct (reach_Inv _ _ _ _ Hrun) as (it & HI & _).
  destruct (step_total (length (heap s)) (capacity (lru s)) o it) as [r Hstep].
  pose proof (exec_step _ _ _ _ HI Hstep) as Hexec'. destruct r as [it'|].
  - destruct Hexec' as (s1 & Hexec1 & HI' & _). rewrite Hexec in Hexec1.
    injection Hexec1 as <-. rewrite (Inv_size _ _ HI), (Inv_size _ _ HI').
    by eapply step_length_mono.
  - by rewrite Hexec in Hexec'.
Qed.

(** X9 — the index is sound.  In any reachable state every index entry is a
    non-nil pointer to a node on the heap that carries the entry's key, and
    that node is neither sentinel. *)
Theorem index_sound cap h0 ops s k p :
  run ops (Constructor cap h0) = Ok s → cache (lru s) !! k = Some p →
  ∃ a n, p = Some a ∧ heap s !! a = Some n ∧ key n = k ∧
         Some a ≠ head (lru s) ∧ Some a ≠ tail (lru s).
Proof.
  intros Hrun Hp. destruct (reach_Inv _ _ _ _ Hrun) as (it & HI & _).
  destruct HI as (hd & tl & Hhd & Htl & Hwf & HN & Hcache). rewrite Hcache in Hp.
  apply index_lookup in Hp as (a & v & -> & Hin); [|done].
  destruct (wf_holds _ _ _ _ Hwf a k v Hin) as [Hk _].
  unfold fld in Hk. destruct (heap s !! a) as [n|] eqn:Hn; [|done].
  simpl in Hk. injection Hk as Hk.
  apply list_elem_of_split in Hin as (it1 & it2 & ->).
  pose proof (wf_nodup _ _ _ _ Hwf) as HND. rewrite chain_middle in HND.
  exists a, n. split_and!; [done|done|done| |].
  - rewrite Hhd. intros [= ->]. apply NoDup_app in HND as (_ & Hd & _).
    apply (Hd hd); left.
  - rewrite Htl. intros [= ->]. apply NoDup_app in HND as (_ & _ & HND).
    apply NoDup_cons in HND as [Hni _]. apply Hni, elem_of_app. right. left.
Qed.

(** X13 — what the constructor fixes stays fixed.  In any reachable state
    the capacity and the two sentinel pointers are the ones the constructor
    set, the head sentinel has no predecessor and the tail sentinel no
    successor. *)
Theorem config_is_fixed cap h0 ops s :
  run ops (Constructor cap h0) = Ok s →
  capacity (lru s) = cap ∧
  head (lru s) = Some (length h0) ∧ tail (lru s) = Some (S (length h0)) ∧
  load prev (head (lru s)) s = Ok (None, s) ∧
  load next (tail (lru s)) s = Ok (None, s).
Proof.
  intros Hrun. pose proof (run_config _ _ _ Hrun) as Hcfg.
  unfold config in Hcfg. simpl in Hcfg. injection Hcfg as Hc Hh Ht.
  destruct (reach_Inv _ _ _ _ Hrun) as (it & (hd & tl & Hhd & Htl & Hwf & _) & _).
  split_and!; [done|done|done| |].
  - rewrite Hhd. apply load_run, (wf_head _ _ _ _ Hwf).
  - rewrite Htl. apply load_run, (wf_tail _ _ _ _ Hwf).
Qed.

(** *** The list model *)











(** *** What [Put] can lose *)



(** *** [popTail] on its own *)



(** *** Capacity one, and how long an entry survives *)

Lemma run_snoc ops o :
  ∀ s, run (ops ++ [o]) s =
       match run ops s with
       | Ok s1 => match exec o s1 with
                  | Ok (_, s2) => Ok s2
                  | Err e => Err e
                  end
       | Err e => Err e
       end.
Proof.
  induction ops as [|o' ops IH]; intros s; simpl.
  - by destruct (exec o s) as [[[] ?]|].
  - destruct (exec o' s) as [[[] s1]|]; [apply IH|done].
Qed.

(** X12 — capacity one.  A cache of capacity 1 holds exactly the pair of
    the last [Put]: whatever came before, right after [Put k v] the traversal
    prints [(k, v)] alone. *)
Theorem capacity_one_keeps_last_put h0 ops k v :
  ∃ s,
    run (ops ++ [OPut k v]) (Constructor 1 h0) = Ok s ∧
    (∀ fuel, 1 ≤ fuel → Display fuel s = Ok ([(k, v)], s)).
Proof.
  destruct (reach_bounded 1 h0 ops) as (s0 & it & Hrun & HI & Hc & Hlen & _); [done|].
  destruct (step_total (length (heap s0)) (capacity (lru s0)) (OPut k v) it) as [r Hstep].
  pose proof (exec_step _ _ _ _ HI Hstep) as Hexec. destruct r as [it'|]; cycle 1.
  { apply step_no_fault in Hstep; [done|by rewrite Hc]. }
  destruct Hexec as (s & Hexec & HI' & _).
  pose proof (step_length _ _ _ _ _ Hstep) as Hlen'. rewrite Hc in Hlen'.
  specialize (Hlen' Hlen).
  destruct (step_put_front _ _ _ _ _ _ Hstep) as (a & rest & ->).
  destruct rest as [|e rest]; [|simpl in Hlen'; lia].
  exists s. split.
  - rewrite run_snoc, Hrun. by rewrite Hexec.
  - intros fuel Hfuel. by apply (Display_run _ _ _ HI').
Qed.

Lemma step_position n cap o it it' p k :
  step n cap o it (Some it') → keys it !! p = Some k → (Z.of_nat (S p) < cap)%Z →
  ∃ p', keys it' !! p' = Some k ∧ p' ≤ S p.
Proof.
  assert (∀ it1 a k0 v v' it2,
            keys (it1 ++ (a, k0, v) :: it2) !! p = Some k →
            ∃ p', keys ((a, k0, v') :: it1 ++ it2) !! p' = Some k ∧ p' ≤ S p) as Hhit.
  { intros it1 a k0 v v' it2. rewrite !keys_app.
    change (keys ((a, k0, v) :: it2)) with (k0 :: keys it2).
    change (keys ((a, k0, v') :: it1 ++ it2)) with (k0 :: keys (it1 ++ it2)).
    rewrite keys_app. intros [Hp|[Hle Hp]]%lookup_app_Some.
    - exists (S p). split; [|lia]. simpl. by apply lookup_app_l_Some.
    - destruct (p - length (keys it1)) as [|q] eqn:E; simpl in Hp.
      + injection Hp as ->. exists 0. split; [done|lia].
      + exists p. split; [|lia]. destruct p as [|p]; [lia|]. simpl.
        rewrite lookup_app_r by lia. by replace (p - length (keys it1)) with q by lia. }
  intros Hstep Hp Hcap. inversion Hstep; subst.
  - exists p. split; [done|lia].
  - by eapply Hhit.
  - by eapply Hhit.
  - exists (S p). split; [done|lia].
  - exists (S p). split; [|lia]. simpl. rewrite keys_app in Hp.
    apply lookup_app_Some in Hp as [Hp|[Hle Hp]]; [done|].
    rewrite length_app in *. simpl in *. unfold keys in Hle. rewrite length_fmap in Hle. lia.
Qed.

Lemma run_position ops k :
  ∀ s it p,
    Inv s it → (1 ≤ capacity (lru s))%Z → (Z.of_nat (length it) ≤ capacity (lru s))%Z →
    keys it !! p = Some k → (Z.of_nat (p + length ops) < capacity (lru s))%Z →
    ∃ s' it' p', run ops s = Ok s' ∧ Inv s' it' ∧ keys it' !! p' = Some k.
Proof.
  induction ops as [|o ops IH]; intros s it p HI Hcap Hlen Hp Hlt; simpl.
  - by exists s, it, p.
  - destruct (step_total (length (heap s)) (capacity (lru s)) o it) as [r Hstep].
    pose proof (exec_step _ _ _ _ HI Hstep) as Hexec. destruct r as [it1|]; cycle 1.
    { by apply step_no_fault in Hstep. }
    destruct Hexec as (s1 & Hexec & HI1 & Hcap1). rewrite Hexec.
    destruct (step_position _ _ _ _ _ p k Hstep Hp) as (p1 & Hp1 & Hle).
    { simpl in Hlt. lia. }
    apply (IH s1 it1 p1); [done|by rewrite Hcap1| |done|].
    + rewrite Hcap1. by eapply step_length.
    + rewrite Hcap1. simpl in Hlt. lia.
Qed.

(** X14 — how long an entry survives.  In a state reached from a cache of
    capacity at least 1, a key printed at position [p] of the traversal is
    still in the index after any further operations as long as [p] plus their
    number stays below the capacity; a key just used, at position 0,
    survives any [capacity - 1] operations. *)
Theorem recently_used_survives cap h0 ops s items p k ops' :
  (1 ≤ cap)%Z → run ops (Constructor cap h0) = Ok s →
  Display (size (cache (lru s))) s = Ok (items, s) →
  items.*1 !! p = Some k → (Z.of_nat (p + length ops') < cap)%Z →
  ∃ s', run ops' s = Ok s' ∧ is_Some (cache (lru s') !! k).
Proof.
  intros Hcap Hrun HD Hp Hlt.
  destruct (reach_bounded cap h0 ops Hcap) as (s0 & it & Hrun0 & HI & Hc & Hlen & _).
  rewrite Hrun in Hrun0. injection Hrun0 as <-.
  rewrite (Display_size _ _ _ HI) in HD by done. injection HD as <-.
  rewrite contents_keys in Hp.
  destruct (run_position ops' k s it p HI) as (s' & it' & p' & Hrun' & HI' & Hp');
    [by rewrite Hc|by rewrite Hc|done|by rewrite Hc|].
  exists s'. split; [done|].
  destruct (cache (lru s') !! k) as [q|] eqn:E; [by eexists|].
  destruct HI' as (? & ? & _ & _ & _ & _ & Hcache). rewrite Hcache in E.
  apply index_lookup_None in E. exfalso. apply E. by eapply list_elem_of_lookup_2.
Qed.

(** *** Links, allocation, and [Put] twice *)

Lemma wf_neighbours h hd tl it1 a k v it2 :
  wf_list h hd tl (it1 ++ (a, k, v) :: it2) →
  ∃ pa na,
    fld prev h a = Some (Some pa) ∧ fld next h pa = Some (Some a) ∧
    fld next h a = Some (Some na) ∧ fld prev h na = Some (Some a).
Proof.
  intros [_ Hl _ _ _].
  pose proof (chain_length hd tl (it1 ++ (a, k, v) :: it2)) as Hlen.
  rewrite length_app in Hlen. cbn [length] in Hlen.
  assert (chain hd tl (it1 ++ (a, k, v) :: it2) !! S (length it1) = Some a) as Ha.
  { rewrite chain_middle.
    assert (length (hd :: addrs it1) = S (length it1)) as <-
      by (unfold addrs; simpl; by rewrite length_fmap).
    by apply list_lookup_middle. }
  destruct (lookup_lt_is_Some_2 (chain hd tl (it1 ++ (a, k, v) :: it2)) (length it1))
    as [pa Hpa]; [lia|].
  destruct (lookup_lt_is_Some_2 (chain hd tl (it1 ++ (a, k, v) :: it2)) (S (S (length it1))))
    as [na Hna]; [lia|].
  destruct (Hl _ _ _ Hpa Ha) as [? ?], (Hl _ _ _ Ha Hna) as [? ?].
  by exists pa, na.
Qed.

(** X15 — live nodes are linked both ways.  In any reachable state, a node
    the index points at has a predecessor and a successor, neither nil, and
    each of them points back at the node. *)
Theorem live_nodes_linked cap h0 ops s k a :
  run ops (Constructor cap h0) = Ok s → cache (lru s) !! k = Some (Some a) →
  ∃ pa na,
    load prev (Some a) s = Ok (Some pa, s) ∧ load next (Some pa) s = Ok (Some a, s) ∧
    load next (Some a) s = Ok (Some na, s) ∧ load prev (Some na) s = Ok (Some a, s).
Proof.
  intros Hrun Hk. destruct (reach_Inv _ _ _ _ Hrun) as (it & HI & _).
  destruct HI as (hd & tl & _ & _ & Hwf & HN & Hcache). rewrite Hcache in Hk.
  apply index_lookup in Hk as (a' & v & [= <-] & Hin); [|done].
  apply list_elem_of_split in Hin as (it1 & it2 & ->).
  destruct (wf_neighbours _ _ _ _ _ _ _ _ Hwf) as (pa & na & ? & ? & ? & ?).
  exists pa, na. split_and!; by apply load_run.
Qed.

Lemma allocates_ret {A} (a : A) : allocates 0 (ret a).
Proof. intros s a' s' [= _ <-]. lia. Qed.

Lemma allocates_bind {A B} n n' (m : M A) (k : A → M B) :
  allocates n m → (∀ a, allocates n' (k a)) → allocates (n + n') (bind m k).
Proof.
  intros Hm Hk s b s'. unfold bind. destruct (m s) as [[a s1]|] eqn:E; [|done].
  intros Hb. rewrite (Hk a _ _ _ Hb), (Hm _ _ _ E). lia.
Qed.

Lemma allocates_this : allocates 0 this.
Proof. intros s a s' [= _ <-]. lia. Qed.

Lemma allocates_load {A} (f : Node → A) p : allocates 0 (load f p).
Proof.
  intros s a s'. unfold load. destruct p as [b|]; [|done].
  destruct (heap s !! b); [|done]. intros [= _ <-]. lia.
Qed.

Lemma allocates_store g p : allocates 0 (store g p).
Proof.
  intros s a s'. unfold store. destruct p as [b|]; [|done].
  destruct (heap s !! b); [|done]. intros [= _ <-]. simpl. rewrite length_alter. lia.
Qed.

Lemma allocates_alloc n : allocates 1 (alloc n).
Proof. intros s a s' [= _ <-]. simpl. by rewrite length_app. Qed.

Lemma allocates_cache_insert k p : allocates 0 (cache_insert k p).
Proof. intros s a s' [= _ <-]. simpl. lia. Qed.

Lemma allocates_cache_delete k : allocates 0 (cache_delete k).
Proof. intros s a s' [= _ <-]. simpl. lia. Qed.

Create HintDb allocates.
#[local] Hint Resolve allocates_ret allocates_this allocates_load allocates_store
  allocates_cache_insert allocates_cache_delete : allocates.

Ltac allocates0 :=
  repeat (apply (allocates_bind 0 0); [|intros]); auto with allocates.

Lemma allocates_addNode node : allocates 0 (addNode node).
Proof. unfold addNode. allocates0. Qed.

Lemma allocates_removeNode node : allocates 0 (removeNode node).
Proof. unfold removeNode. allocates0. Qed.

Lemma allocates_moveToHead node : allocates 0 (moveToHead node).
Proof.
  unfold moveToHead.
  apply (allocates_bind 0 0); auto using allocates_removeNode, allocates_addNode.
Qed.

Lemma allocates_popTail : allocates 0 popTail.
Proof.
  unfold popTail. apply (allocates_bind 0 0); [auto with allocates|]. intros c.
  apply (allocates_bind 0 0); [auto with allocates|]. intros lastNode.
  apply (allocates_bind 0 0); [apply allocates_removeNode|auto with allocates].
Qed.

(** X16 — allocation.  From any state whatever, a [Get] that returns has
    allocated no node, and a [Put] that returns has allocated none when the
    key was in the index and exactly one when it was not, eviction or not. *)
Theorem allocation_per_call (s : state) k :
  (∀ r s', Get k s = Ok (r, s') → length (heap s') = length (heap s)) ∧
  (∀ v s', Put k v s = Ok (tt, s') →
     length (heap s') = length (heap s) + match cache (lru s) !! k with
                                          | Some _ => 0
                                          | None => 1
                                          end).
Proof.
  split.
  - intros r s' HGet. rewrite <-(Nat.add_0_r (length (heap s))).
    revert HGet. apply (allocates_bind 0 0 this); [apply allocates_this|]. intros c.
    destruct (cache c !! k); [|auto with allocates].
    apply (allocates_bind 0 0); [apply allocates_moveToHead|]. intros _. allocates0.
  - intros v s'. unfold Put. rewrite this_run. cbv beta.
    destruct (cache (lru s) !! k) as [node|].
    + apply (allocates_bind 0 0); [auto with allocates|]. intros _.
      apply allocates_moveToHead.
    + apply (allocates_bind 1 0); [apply allocates_alloc|]. intros newNode.
      apply (allocates_bind 0 0).
      * destruct (Z.of_nat (size (cache (lru s))) >=? capacity (lru s))%Z;
          [|auto with allocates].
        apply (allocates_bind 0 0); [apply allocates_popTail|]. intros tl. allocates0.
      * intros _. apply (allocates_bind 0 0); [auto with allocates|]. intros _.
        apply allocates_addNode.
Qed.



End LRU.

(** ** The demonstration of [main], and the properties at concrete inputs

    [stringCache] of [main], with numbers standing for the strings. *)

Example main_after_three_puts :
  shown (run_from (Constructor 3 []) [OPut 1 10; OPut 2 20; OPut 3 30])
  = Some [(3, 30); (2, 20); (1, 10)].
Proof. reflexivity. Qed.

Example main_after_get :
  shown (run_from (Constructor 3 []) [OPut 1 10; OPut 2 20; OPut 3 30; OGet 2])
  = Some [(2, 20); (3, 30); (1, 10)].
Proof. reflexivity. Qed.

Example main_after_eviction :
  let s := run_from (Constructor 3 [])
             [OPut 1 10; OPut 2 20; OPut 3 30; OGet 2; OPut 4 40] in
  shown s = Some [(4, 40); (2, 20); (3, 30)] ∧ Get 1 s = Ok ((0, false), s).
Proof. split; reflexivity. Qed.

Example overwrite_keeps_size :
  let s := run_from (Constructor 2 []) [OPut 1 1; OPut 2 2; OPut 1 99] in
  size (cache (lru s)) = 2 ∧
  ∃ s', Get 2 s = Ok ((2, true), s') ∧ shown s' = Some [(2, 2); (1, 99)].
Proof. split; [reflexivity|]. eexists. split; reflexivity. Qed.





Lemma Get_present_witness :
  let ops := [OPut 1 10; OPut 2 20; OPut 3 30; OGet 2] in
  let s := run_from (Constructor (K := nat) (V := nat) 3 []) ops in
  (run ops (Constructor 3 []) = Ok s ∧ is_Some (cache (lru s) !! 1)) ∧
  ∃ v s' l1 l2,
    stored s 1 = Some v ∧
    Get 1 s = Ok ((v, true), s') ∧
    (∀ k', stored s' k' = stored s k') ∧
    cache (lru s') = cache (lru s) ∧
    Display (size (cache (lru s))) s = Ok (l1 ++ (1, v) :: l2, s) ∧
    Display (size (cache (lru s'))) s' = Ok ((1, v) :: l1 ++ l2, s').
Proof.
  intros ops s.
  assert (is_Some (cache (lru s) !! 1)) as Hin by (eexists; reflexivity).
  split; [split; [reflexivity|exact Hin]|].
  apply (Get_present 3 [] ops s 1); [reflexivity|exact Hin].
Defined.

Lemma Put_present_witness :
  let ops := [OPut 1 10; OPut 2 20; OPut 3 30; OGet 2] in
  let s := run_from (Constructor (K := nat) (V := nat) 3 []) ops in
  (run ops (Constructor 3 []) = Ok s ∧ is_Some (cache (lru s) !! 1)) ∧
  ∃ v0 s' l1 l2,
    Put 1 99 s = Ok (tt, s') ∧
    stored s' 1 = Some 99 ∧
    (∀ k', k' ≠ 1 → stored s' k' = stored s k') ∧
    cache (lru s') = cache (lru s) ∧
    dom (cache (lru s')) = dom (cache (lru s)) ∧
    size (cache (lru s')) = size (cache (lru s)) ∧
    Display (size (cache (lru s))) s = Ok (l1 ++ (1, v0) :: l2, s) ∧
    Display (size (cache (lru s'))) s' = Ok ((1, 99) :: l1 ++ l2, s').
Proof.
  intros ops s.
  assert (is_Some (cache (lru s) !! 1)) as Hin by (eexists; reflexivity).
  split; [split; [reflexivity|exact Hin]|].
  apply (Put_present 3 [] ops s 1 99); [reflexivity|exact Hin].
Defined.

Lemma Get_absent_witness :
  let s := run_from (Constructor (K := nat) (V := nat) 3 [])
             [OPut 1 10; OPut 2 20; OPut 3 30; OGet 2] in
  cache (lru s) !! 7 = None ∧ Get 7 s = Ok ((zero, false), s).
Proof. intros s. split; [reflexivity|]. apply (Get_absent s 7). reflexivity. Defined.

Lemma Get_twice_witness :
  let ops := [OPut 1 10; OPut 2 20; OPut 3 30; OGet 2] in
  let s := run_from (Constructor (K := nat) (V := nat) 3 []) ops in
  (run ops (Constructor 3 []) = Ok s ∧ is_Some (cache (lru s) !! 1)) ∧
  ∃ v s1, Get 1 s = Ok ((v, true), s1) ∧ Get 1 s1 = Ok ((v, true), s1).
Proof.
  intros ops s.
  assert (is_Some (cache (lru s) !! 1)) as Hin by (eexists; reflexivity).
  split; [split; [reflexivity|exact Hin]|].
  apply (Get_twice 3 [] ops s 1); [reflexivity|exact Hin].
Defined.

Lemma popTail_safe_witness :
  let ops := [OPut 1 10; OPut 2 20; OPut 3 30; OGet 2] in
  (1 ≤ 3)%Z ∧
  ∃ s,
    run ops (Constructor (K := nat) (V := nat) 3 []) = Ok s ∧
    (∀ k, ∃ r s', Get k s = Ok (r, s')) ∧
    (∀ k v, ∃ s', Put k v s = Ok (tt, s')) ∧
    (∀ k v,
       cache (lru s) !! k = None →
       (Z.of_nat (size (cache (lru s))) >=? capacity (lru s))%Z = true →
       1 ≤ size (cache (lru s)) ∧
       ∃ a kb s1,
         popTail (with_heap
                    (λ h, h ++ [{| key := k; value := v; prev := None; next := None |}])
                    s) = Ok (Some a, s1) ∧
         Some a ≠ head (lru s) ∧ Some a ≠ tail (lru s) ∧
         cache (lru s) !! kb = Some (Some a)).
Proof. intros ops. split; [lia|]. apply (popTail_safe 3 [] ops). lia. Defined.

Lemma nonpositive_capacity_faults_witness :
  (0 ≤ 0)%Z ∧
  Put 1 10 (Constructor (K := nat) (V := nat) 0 []) = Err NilDeref ∧
  run [OGet 5; OGet 1; OPut 1 10] (Constructor (K := nat) (V := nat) 0 []) = Err NilDeref.
Proof.
  split; [lia|].
  destruct (nonpositive_capacity_faults (K := nat) (V := nat) 0 [] 1 10)
    as (_ & _ & _ & _ & _ & _ & HPut & Hrun); [lia|].
  split; [exact HPut|exact (Hrun [5; 1])].
Defined.

(** ** The further properties at concrete inputs *)



Lemma Put_below_capacity_witness :
  let ops := [OPut 1 10; OPut 2 20] in
  let s := run_from (Constructor (K := nat) (V := nat) 3 []) ops in
  (run ops (Constructor 3 []) = Ok s ∧ cache (lru s) !! 3 = None ∧
   (Z.of_nat (size (cache (lru s))) < 3)%Z) ∧
  ∃ s' items,
    Display (size (cache (lru s))) s = Ok (items, s) ∧
    Put 3 30 s = Ok (tt, s') ∧
    Display (size (cache (lru s'))) s' = Ok ((3, 30) :: items, s') ∧
    size (cache (lru s')) = S (size (cache (lru s))) ∧
    stored s' 3 = Some 30 ∧
    (∀ k', k' ≠ 3 → stored s' k' = stored s k').
Proof.
  intros ops s.
  assert (Z.of_nat (size (cache (lru s))) < 3)%Z as Hlt by (vm_compute; reflexivity).
  split; [split_and!; [reflexivity|reflexivity|exact Hlt]|].
  apply (Put_below_capacity 3 [] ops s 3 30); [reflexivity|reflexivity|exact Hlt].
Defined.



Lemma nonpositive_capacity_run_witness :
  (0 ≤ 0)%Z ∧
  run [OGet 1; OGet 2] (Constructor (K := nat) (V := nat) 0 []) = Ok (Constructor 0 []) ∧
  run [OGet 1; OPut 2 20; OGet 2] (Constructor (K := nat) (V := nat) 0 []) = Err NilDeref.
Proof.
  split; [lia|]. split.
  - apply (nonpositive_capacity_run (K := nat) (V := nat) 0 [] [OGet 1; OGet 2]). lia.
  - apply (nonpositive_capacity_run (K := nat) (V := nat) 0 []
             [OGet 1; OPut 2 20; OGet 2]). lia.
Defined.

Lemma size_never_shrinks_witness :
  let ops := [OPut 1 10; OPut 2 20; OPut 3 30; OGet 2] in
  let s := run_from (Constructor (K := nat) (V := nat) 3 []) ops in
  let s' := run_from s [OPut 4 40] in
  (run ops (Constructor 3 []) = Ok s ∧ exec (OPut 4 40) s = Ok (tt, s')) ∧
  size (cache (lru s)) ≤ size (cache (lru s')) ≤ S (size (cache (lru s))).
Proof.
  intros ops s s'. split; [split; reflexivity|].
  apply (size_never_shrinks 3 [] ops s (OPut 4 40) s'); reflexivity.
Defined.

Lemma index_sound_witness :
  let ops := [OPut 1 10; OPut 2 20; OPut 3 30; OGet 2] in
  let s := run_from (Constructor (K := nat) (V := nat) 3 []) ops in
  (run ops (Constructor 3 []) = Ok s ∧ cache (lru s) !! 1 = Some (Some 2)) ∧
  ∃ a n, Some 2 = Some a ∧ heap s !! a = Some n ∧ key n = 1 ∧
         Some a ≠ head (lru s) ∧ Some a ≠ tail (lru s).
Proof.
  intros ops s. split; [split; reflexivity|].
  apply (index_sound 3 [] ops s 1 (Some 2)); reflexivity.
Defined.


Example model_of_main :
  model (K := nat) (V := nat) 3 [OPut 1 10; OPut 2 20; OPut 3 30; OGet 2; OPut 4 40]
  = [(4, 40); (2, 20); (3, 30)].
Proof. reflexivity. Qed.


Lemma config_is_fixed_witness :
  let ops := [OPut 1 10; OPut 2 20; OPut 3 30; OGet 2] in
  let s := run_from (Constructor (K := nat) (V := nat) 3 []) ops in
  run ops (Constructor 3 []) = Ok s ∧
  capacity (lru s) = 3%Z ∧
  head (lru s) = Some 0 ∧ tail (lru s) = Some 1 ∧
  load prev (head (lru s)) s = Ok (None, s) ∧
  load next (tail (lru s)) s = Ok (None, s).
Proof.
  intros ops s. split; [reflexivity|].
  apply (config_is_fixed 3 [] ops s). reflexivity.
Defined.

Lemma recently_used_survives_witness :
  let ops := [OPut 1 10; OPut 2 20; OPut 3 30; OGet 2] in
  let s := run_from (Constructor (K := nat) (V := nat) 3 []) ops in
  let items := [(2, 20); (3, 30); (1, 10)] in
  let ops' := [OPut 4 40; OPut 5 50] in
  ((1 ≤ 3)%Z ∧ run ops (Constructor 3 []) = Ok s ∧
   Display (size (cache (lru s))) s = Ok (items, s) ∧
   items.*1 !! 0 = Some 2 ∧ (Z.of_nat (0 + length ops') < 3)%Z) ∧
  ∃ s', run ops' s = Ok s' ∧ is_Some (cache (lru s') !! 2).
Proof.
  intros ops s items ops'.
  split; [split_and!; [lia|reflexivity|reflexivity|reflexivity|simpl; lia]|].
  apply (recently_used_survives 3 [] ops s items 0 2 ops');
    [lia|reflexivity|reflexivity|reflexivity|simpl; lia].
Defined.

Lemma live_nodes_linked_witness :
  let ops := [OPut 1 10; OPut 2 20; OPut 3 30; OGet 2] in
  let s := run_from (Constructor (K := nat) (V := nat) 3 []) ops in
  (run ops (Constructor 3 []) = Ok s ∧ cache (lru s) !! 1 = Some (Some 2)) ∧
  ∃ pa na,
    load prev (Some 2) s = Ok (Some pa, s) ∧ load next (Some pa) s = Ok (Some 2, s) ∧
    load next (Some 2) s = Ok (Some na, s) ∧ load prev (Some na) s = Ok (Some 2, s).
Proof.
  intros ops s. split; [split; reflexivity|].
  apply (live_nodes_linked 3 [] ops s 1 2); reflexivity.
Defined.

